(** * Int8Quantization: affine uint8 quantization of linear layers

    A shallow embedding of the quantization code of [Int8Quantization.ipynb]
    ([QuantizedLinearLayer], [quantize_linear], [quantize_model]) and the
    properties stated about it.

    Numbers.  The notebook computes on float32 tensors.  Its arithmetic is
    embedded twice.

    On numbers: the finite values are exact rationals ([Q]), and the special
    values an IEEE operation can produce (the two infinities and NaN) are
    explicit constructors of [scalar].  The weights a layer holds are
    finite.  Comparisons, [min], [max], [round], [clamp] and the cast to
    [uint8] are exact operations of float32 as well.  This reading carries
    the calibration, the range of the stored bytes, the range that is a
    single point, the order of the codes, and the traversal of the model,
    which does not compute at all.

    In binary32 ([f32], below): the subtraction, the division, the product
    and the sum round and overflow as IEEE 754 has it.  This reading
    carries what depends on the result of these operations: the scale, the
    zero point, and the round trip through [forward]. *)

From Stdlib Require Import ZArith QArith Qround Qabs Qminmax Lqa Lia.
From Stdlib Require Import List String Bool.
From Stdlib Require Import SpecFloat.
Import ListNotations.

Local Open Scope Q_scope.

(** ** Exceptions *)

Inductive exception : Type :=
| AttributeError   (* attribute access on [None]: [bias.min()] *)
| RuntimeError.    (* [min()] / [max()] of a tensor without elements *)

Inductive result (A : Type) : Type :=
| Ok (a : A)
| Raise (e : exception).

Arguments Ok {A} a.
Arguments Raise {A} e.

Definition bind {A B : Type} (m : result A) (k : A -> result B) : result B :=
  match m with
  | Ok a => k a
  | Raise e => Raise e
  end.

Notation "x <- m ;; k" := (bind m (fun x => k))
  (at level 61, m at next level, right associativity).
Notation "' p <- m ;; k" := (bind m (fun x => let p := x in k))
  (at level 61, p pattern, m at next level, right associativity).

(** ** Scalars: rationals with the IEEE special values *)

(** The operations of this section are the operations on numbers, with the
    IEEE rules for the infinities and NaN: they do not round.  The float
    operations of the notebook, which do, are [fadd], [fsub], [fmul] and
    [fdiv] below. *)

Inductive scalar : Type :=
| Fin (q : Q)
| PInf
| NInf
| NaN.

Definition Qltb (x y : Q) : bool := negb (Qle_bool y x).

(** The sign of a non-zero rational selects the infinity. *)
Definition inf_of_sign (q : Q) : scalar :=
  if Qltb 0 q then PInf else if Qltb q 0 then NInf else NaN.

Definition sneg (x : scalar) : scalar :=
  match x with
  | Fin q => Fin (- q)
  | PInf => NInf
  | NInf => PInf
  | NaN => NaN
  end.

Definition sadd (x y : scalar) : scalar :=
  match x, y with
  | NaN, _ | _, NaN => NaN
  | Fin p, Fin q => Fin (p + q)
  | PInf, NInf | NInf, PInf => NaN
  | PInf, _ | _, PInf => PInf
  | NInf, _ | _, NInf => NInf
  end.

Definition ssub (x y : scalar) : scalar := sadd x (sneg y).

Definition smul (x y : scalar) : scalar :=
  match x, y with
  | NaN, _ | _, NaN => NaN
  | Fin p, Fin q => Fin (p * q)
  | Fin p, PInf | PInf, Fin p => inf_of_sign p
  | Fin p, NInf | NInf, Fin p => inf_of_sign (- p)
  | PInf, PInf | NInf, NInf => PInf
  | PInf, NInf | NInf, PInf => NInf
  end.

(** Division.  A zero divisor is [+0.0]: the only divisors the code forms are
    [max_val - min_val] with [min_val <= max_val], and a stored scale. *)
Definition sdiv (x y : scalar) : scalar :=
  match x, y with
  | NaN, _ | _, NaN => NaN
  | Fin p, Fin q => if Qeq_bool q 0 then inf_of_sign p else Fin (p / q)
  | Fin _, PInf | Fin _, NInf => Fin 0
  | PInf, Fin q => if Qltb q 0 then NInf else PInf
  | NInf, Fin q => if Qltb q 0 then PInf else NInf
  | PInf, PInf | PInf, NInf | NInf, PInf | NInf, NInf => NaN
  end.

(** [torch.round]: to the nearest integer, ties to the even one. *)
Definition round_half_even (q : Q) : Z :=
  let f := Qfloor q in
  let r := q - inject_Z f in
  if Qltb r (1 # 2) then f
  else if Qltb (1 # 2) r then (f + 1)%Z
  else if Z.even f then f else (f + 1)%Z.

Definition sround (x : scalar) : scalar :=
  match x with
  | Fin q => Fin (inject_Z (round_half_even q))
  | _ => x
  end.

(** [Tensor.clamp(lo, hi)] is [min(max(x, lo), hi)]; NaN stays NaN. *)
Definition Qclamp (lo hi q : Q) : Q :=
  let m := if Qltb q lo then lo else q in
  if Qltb hi m then hi else m.

Definition sclamp (lo hi : Q) (x : scalar) : scalar :=
  match x with
  | Fin q => Fin (Qclamp lo hi q)
  | PInf => Fin hi
  | NInf => Fin lo
  | NaN => NaN
  end.

(** The clamp to [0, 255] of an integer, on [Z]. *)
Definition clamp_byte (n : Z) : Z := Z.min (Z.max n 0) 255.

(** Absolute value and order, which the properties are stated with.  An
    order comparison with NaN is false. *)
Definition sabs (x : scalar) : scalar :=
  match x with
  | Fin q => Fin (Qabs q)
  | NaN => NaN
  | _ => PInf
  end.

Definition sleb (x y : scalar) : bool :=
  match x, y with
  | NaN, _ | _, NaN => false
  | Fin p, Fin q => Qle_bool p q
  | NInf, _ | _, PInf => true
  | _, _ => false
  end.

(** Two scalars that denote the same value. *)
Definition scalar_eq (x y : scalar) : Prop :=
  match x, y with
  | Fin p, Fin q => p == q
  | PInf, PInf | NInf, NInf | NaN, NaN => True
  | _, _ => False
  end.

(** [d] is within half a quantization step, [0.5 / scale], of [v]. *)
Definition within_half_step (scale : scalar) (d : scalar) (v : Q) : Prop :=
  sleb (sabs (ssub d (Fin v))) (sdiv (Fin (1 # 2)) scale) = true.

(** Truncation toward zero, the integer part a float-to-integer cast keeps. *)
Definition Qtrunc (q : Q) : Z :=
  if Qltb q 0 then Qceiling q else Qfloor q.

(** The cast [.to(torch.uint8)] of a value that is not a number is not
    defined by the cast itself; the byte it gives is a parameter of the
    platform. *)
Class Platform : Type := {
  nan_to_uint8 : Z;
  nan_to_uint8_range : (0 <= nan_to_uint8 < 256)%Z
}.

(** The usual behaviour of the CPU kernels. *)
Definition cpu : Platform :=
  {| nan_to_uint8 := 0%Z; nan_to_uint8_range := ltac:(lia) |}.

Section Quantization.

Context {platform : Platform}.

(** [.to(torch.uint8)]: drop the fraction, keep the low eight bits. *)
Definition to_uint8 (x : scalar) : Z :=
  match x with
  | Fin q => (Qtrunc q mod 256)%Z
  | _ => nan_to_uint8
  end.

(** ** Tensors *)

(** The elements of a float tensor, in storage order.  Every operation of the
    quantization code is either elementwise or a reduction over all elements,
    so the shape plays no part. *)
Definition tensor : Type := list Q.

(** A [uint8] tensor. *)
Definition qtensor : Type := list Z.

Definition Qmin2 (x y : Q) : Q := if Qltb y x then y else x.
Definition Qmax2 (x y : Q) : Q := if Qltb x y then y else x.

(** [Tensor.min()] and [Tensor.max()] over all elements. *)
Definition tensor_min (t : tensor) : result Q :=
  match t with
  | [] => Raise RuntimeError
  | x :: xs => Ok (fold_left Qmin2 xs x)
  end.

Definition tensor_max (t : tensor) : result Q :=
  match t with
  | [] => Raise RuntimeError
  | x :: xs => Ok (fold_left Qmax2 xs x)
  end.

(** [m] is the least, resp. the greatest, element of [t]. *)
Definition is_min (t : tensor) (m : Q) : Prop :=
  In m t /\ forall v, In v t -> m <= v.

Definition is_max (t : tensor) (m : Q) : Prop :=
  In m t /\ forall v, In v t -> v <= m.

(** ** quantize_linear *)

(** The statements of [quantize_linear], computed on numbers.  Computed in
    binary32 they are [f32_calibrate], [f32_affine_params] and
    [f32_quantize_tensor] below. *)

(** [# compute min and max] and [# extend interval to include zero]. *)
Definition calibrate (t : tensor) : result (Q * Q) :=
  min_val <- tensor_min t ;;
  max_val <- tensor_max t ;;
  let min_val := if Qltb 0 min_val then 0 else min_val in
  let max_val := if Qltb max_val 0 then 0 else max_val in
  Ok (min_val, max_val).

(** [# compute scale] and [# compute zero point]. *)
Definition affine_params (min_val max_val : Q) : scalar * Z :=
  let scale := sdiv (Fin 255) (Fin (max_val - min_val)) in
  let zero_point :=
    to_uint8 (sclamp 0 255 (sround (smul (Fin (- min_val)) scale))) in
  (scale, zero_point).

(** One element of [(t * scale + zero_point).round().clamp(0, 255)], the
    float the cast receives, and of the tensor [.to(torch.uint8)] makes of
    it. *)
Definition clamped_value (scale : scalar) (zero_point : Z) (v : Q) : scalar :=
  sclamp 0 255
    (sround (sadd (smul (Fin v) scale) (Fin (inject_Z zero_point)))).

Definition quantize_value (scale : scalar) (zero_point : Z) (v : Q) : Z :=
  to_uint8 (clamped_value scale zero_point v).

(** The statements [quantize_linear] runs on the weight, and then again
    ([# same for bias]) on the bias. *)
Definition quantize_tensor (t : tensor) : result (qtensor * scalar * Z) :=
  ' (min_val, max_val) <- calibrate t ;;
  let '(scale, zero_point) := affine_params min_val max_val in
  let quantized := map (quantize_value scale zero_point) t in
  Ok (quantized, scale, zero_point).

(** [nn.Linear]: [bias] is [None] for a layer built with [bias=False]. *)
Record LinearLayer : Type := {
  in_features : Z;
  out_features : Z;
  weight : tensor;
  bias : option tensor
}.

(** What [quantize_linear] returns, in the order of its tuple. *)
Record quantized_params : Type := {
  weight_quantized : qtensor;
  weight_scale : scalar;
  weight_zero_point : Z;
  bias_quantized : qtensor;
  bias_scale : scalar;
  bias_zero_point : Z
}.

Definition quantize_linear (linear_layer : LinearLayer)
  : result quantized_params :=
  ' (wq, ws, wz) <- quantize_tensor (weight linear_layer) ;;
  bias <- match bias linear_layer with
          | Some b => Ok b
          | None => Raise AttributeError
          end ;;
  ' (bq, bs, bz) <- quantize_tensor bias ;;
  Ok {| weight_quantized := wq; weight_scale := ws; weight_zero_point := wz;
        bias_quantized := bq; bias_scale := bs; bias_zero_point := bz |}.

(** ** QuantizedLinearLayer *)

Record QuantizedLinearLayer : Type := {
  input_dim : Z;
  output_dim : Z;
  q_weight : qtensor;
  q_weight_scale : scalar;
  q_weight_zero_point : Z;
  q_bias : qtensor;
  q_bias_scale : scalar;
  q_bias_zero_point : Z
}.

(** One element of [(t.float() - zero_point) / scale]. *)
Definition dequantize_value (scale : scalar) (zero_point : Z) (q : Z) : scalar :=
  sdiv (ssub (Fin (inject_Z q)) (Fin (inject_Z zero_point))) scale.

(** ** The model tree *)

(** A module of the model: an [nn.Linear], a [QuantizedLinearLayer], or any
    other [nn.Module] with its registered children in registration order
    ([nn.Sequential], or a leaf such as [nn.ReLU] that has none).  A model is
    a tree: every child is a module of its own, registered once. *)
#[local] Unset Elimination Schemes.
Inductive module : Type :=
| Linear (l : LinearLayer)
| Quantized (q : QuantizedLinearLayer)
| nn_Module (cls : string) (children : list (string * module)).
#[local] Set Elimination Schemes.

Definition children_t : Type := list (string * module).

(** [Module.named_children()]: buffers and parameters are not children. *)
Definition named_children (m : module) : children_t :=
  match m with
  | nn_Module _ children => children
  | _ => []
  end.

(** [setattr(model, name, value)] on the children of [model]: the entry
    registered under [name] is overwritten in place; a new name is appended. *)
Fixpoint setattr (children : children_t) (name : string) (value : module)
  : children_t :=
  match children with
  | [] => [(name, value)]
  | (n, m) :: rest =>
      if String.eqb n name then (n, value) :: rest
      else (n, m) :: setattr rest name value
  end.

(** [name in exclude_layers] *)
Definition excluded (name : string) (exclude_layers : list string) : bool :=
  existsb (String.eqb name) exclude_layers.

Definition make_quantized (l : LinearLayer) (p : quantized_params)
  : QuantizedLinearLayer :=
  {| input_dim := in_features l;
     output_dim := out_features l;
     q_weight := weight_quantized p;
     q_weight_scale := weight_scale p;
     q_weight_zero_point := weight_zero_point p;
     q_bias := bias_quantized p;
     q_bias_scale := bias_scale p;
     q_bias_zero_point := bias_zero_point p |}.

Section Loop.

(** The recursive call [quantize_model(layer, exclude_layers)]. *)
Variable recurse : module -> result (module * module).
Variable exclude_layers : list string.

(** The [for] loop over [model.named_children()].  [todo] is what the
    iterator still has to yield, [children] the children of [model] as the
    assignments made so far have left them. *)
Fixpoint quantize_children (todo children : children_t) : result children_t :=
  match todo with
  | [] => Ok children
  | (name, layer) :: rest =>
      if excluded name exclude_layers then quantize_children rest children
      else
        match layer with
        | Linear l =>
            p <- quantize_linear l ;;
            quantize_children rest
              (setattr children name (Quantized (make_quantized l p)))
        | _ =>
            (* [quantize_model(layer, exclude_layers)]: the module the call
               returns is dropped; the child registered under [name] is
               [layer] still, in the state the call has left it in *)
            ' (_, layer') <- recurse layer ;;
            quantize_children rest (setattr children name layer')
        end
  end.

End Loop.

(** [quantize_model(model, exclude_layers, copy_model)].  The result is the
    pair of the module returned and of the state the call leaves its
    argument in: with [copy_model] the loop runs on [copy.deepcopy(model)]
    and the argument is untouched, without it the loop runs on the argument
    itself, which is also what is returned.  The recursive call does not
    pass [copy_model], which is then its default [True].  When the call
    raises, the state of the argument is not kept track of. *)
Fixpoint quantize_model (model : module) (exclude_layers : list string)
  (copy_model : bool) {struct model} : result (module * module) :=
  match model with
  | nn_Module cls children =>
      children' <-
        quantize_children
          (fun layer => quantize_model layer exclude_layers true)
          exclude_layers children children ;;
      let working := nn_Module cls children' in
      Ok (working, if copy_model then model else working)
  | _ => Ok (model, model)
  end.

End Quantization.

(** ** What the properties of the tree are stated with *)

(** Induction on a module, with the property known of every child. *)
Fixpoint module_ind (P : module -> Prop)
  (HL : forall l, P (Linear l))
  (HQ : forall q, P (Quantized q))
  (HM : forall cls children,
      Forall (fun c => P (snd c)) children -> P (nn_Module cls children))
  (m : module) {struct m} : P m :=
  match m with
  | Linear l => HL l
  | Quantized q => HQ q
  | nn_Module cls children =>
      HM cls children
        ((fix go (l : children_t) : Forall (fun c => P (snd c)) l :=
            match l with
            | [] => Forall_nil _
            | c :: r => Forall_cons c (module_ind P HL HQ HM (snd c)) (go r)
            end) children)
  end.

(** [l] with its entry at index [i], if it has one, replaced by [x]. *)
Fixpoint set_nth {A : Type} (i : nat) (x : A) (l : list A) : list A :=
  match l with
  | [] => []
  | y :: r =>
      match i with
      | O => x :: r
      | S j => y :: set_nth j x r
      end
  end.

(** Two lists of children that differ in excluded children only. *)
Definition agree (exclude_layers : list string) (l l' : children_t) : Prop :=
  Forall2
    (fun x y =>
       fst x = fst y /\
       (excluded (fst x) exclude_layers = false -> snd x = snd y))
    l l'.

(** A module with its child at index [i] replaced. *)
Definition put_child (i : nat) (c : string * module) (m : module) : module :=
  match m with
  | nn_Module cls children => nn_Module cls (set_nth i c children)
  | _ => m
  end.

Definition result_map {A B : Type} (f : A -> B) (r : result A) : result B :=
  match r with
  | Ok a => Ok (f a)
  | Raise e => Raise e
  end.

(** The names the loop compares with [exclude_layers] in the course of a
    call: those of the children of [model] and, for a child that is neither
    excluded nor an [nn.Linear], those the recursive call on it compares. *)
Fixpoint names_tested (model : module) (exclude_layers : list string)
  : list string :=
  match model with
  | nn_Module _ children =>
      flat_map
        (fun c : string * module =>
           let (name, layer) := c in
           name ::
             if excluded name exclude_layers then []
             else match layer with
                  | Linear _ => []
                  | Quantized _ => names_tested layer exclude_layers
                  | nn_Module _ _ => names_tested layer exclude_layers
                  end)
        children
  | _ => []
  end.

(** Every child the loop has still to visit is, in [children], what it is in
    [todo]. *)
Definition pending (todo children : children_t) : Prop :=
  forall n m, In (n, m) todo ->
    forall j m', nth_error children j = Some (n, m') -> m' = m.

(** ** Example models *)

(** [nn.Linear(2, 2)] with weight [[1, 2], [-1, 0]] and bias [1, 3] *)
Definition linear_2_2 : module :=
  Linear {| in_features := 2; out_features := 2;
            weight := [1; 2; -1; 0]; bias := Some [1; 3] |}.

(** [nn.Linear(2, 2, bias=False)] *)
Definition layer_no_bias : LinearLayer :=
  {| in_features := 2; out_features := 2;
     weight := [1; 2; -1; 0]; bias := None |}.

(** [nn.Linear(2, 1)] with weight [[0, 0]] and bias [1] *)
Definition layer_zero_weight : LinearLayer :=
  {| in_features := 2; out_features := 1;
     weight := [0; 0]; bias := Some [1] |}.

(** [nn.Sequential(nn.Linear(2, 2), nn.ReLU(), nn.Linear(2, 2))] *)
Definition flat_model : module :=
  nn_Module "Sequential"
    [("0", linear_2_2); ("1", nn_Module "ReLU" []); ("2", linear_2_2)]%string.

(** [nn.Sequential(nn.Linear(2, 2), nn.Sequential(nn.Linear(2, 2)))] *)
Definition nested_model : module :=
  nn_Module "Sequential"
    [("0", linear_2_2);
     ("1", nn_Module "Sequential" [("0", linear_2_2)])]%string.

(** [nn.Sequential(nn.Linear(2, 2), nn.Sequential(nn.Linear(2, 2, bias=False)))] *)
Definition guarded_model : module :=
  nn_Module "Sequential"
    [("0", linear_2_2);
     ("1", nn_Module "Sequential" [("0", Linear layer_no_bias)])]%string.

(** What a caller gets from a call is the module returned, or the exception,
    and the state its argument is left in: the code prints nothing, warns of
    nothing and logs nothing.  An entry of [exclude_layers] is reported to
    the caller when the call with it and the call without it differ in what
    the caller gets. *)
Definition reported {platform : Platform} (model : module)
  (exclude_layers : list string) (copy_model : bool) (entry : string) : Prop :=
  quantize_model model exclude_layers copy_model <>
  quantize_model model
    (filter (fun n => negb (String.eqb n entry)) exclude_layers) copy_model.

(** ** What the further properties are stated with *)

(** A function that may raise, applied to the elements of a list from left
    to right; the first exception ends it. *)
Fixpoint mapM {A B : Type} (f : A -> result B) (l : list A) : result (list B) :=
  match l with
  | [] => Ok []
  | a :: r => b <- f a ;; bs <- mapM f r ;; Ok (b :: bs)
  end.

(** What one turn of the loop of [quantize_model] makes of a child, told of
    that child alone: the child itself when it is excluded, its quantized
    version when it is an [nn.Linear], and the child itself again, once the
    recursive call on it has returned, in every other case. *)
Definition quantize_child {platform : Platform}
  (recurse : module -> result (module * module)) (exclude_layers : list string)
  (c : string * module) : result (string * module) :=
  let (name, layer) := c in
  if excluded name exclude_layers then Ok (name, layer)
  else
    match layer with
    | Linear l =>
        p <- quantize_linear l ;;
        Ok (name, Quantized (make_quantized l p))
    | _ => _ <- recurse layer ;; Ok (name, layer)
    end.

(** A layer [quantize_linear] accepts: its weight has an element, it has a
    bias and the bias has an element. *)
Definition linear_ok (l : LinearLayer) : bool :=
  match weight l, bias l with
  | _ :: _, Some (_ :: _) => true
  | _, _ => false
  end.

(** Every [nn.Linear] a call of [quantize_model] comes to, at any depth, is
    one [quantize_linear] accepts. *)
Fixpoint traversal_ok (model : module) (exclude_layers : list string) : bool :=
  match model with
  | nn_Module _ children =>
      forallb
        (fun c : string * module =>
           let (name, layer) := c in
           excluded name exclude_layers ||
           match layer with
           | Linear l => linear_ok l
           | Quantized _ => traversal_ok layer exclude_layers
           | nn_Module _ _ => traversal_ok layer exclude_layers
           end)
        children
  | _ => true
  end.

(** ** The arithmetic in binary32 *)

(** The tensors of the notebook hold float32 numbers.  [f32] is IEEE 754
    binary32 (24 bits of precision, exponents below 128) as [SpecFloat]
    specifies it: a subtraction, a division, a product and a sum give the
    float nearest to the exact result, ties to even, and an infinity when
    the result is beyond the largest float.  The floats of binary32 are the
    values of [spec_float] that [valid_binary] accepts; what is proved below
    of every [f32] holds of them. *)
Definition f32 : Type := spec_float.

Definition f32_prec : Z := 24.
Definition f32_emax : Z := 128.

Definition fadd : f32 -> f32 -> f32 := SFadd f32_prec f32_emax.
Definition fsub : f32 -> f32 -> f32 := SFsub f32_prec f32_emax.
Definition fmul : f32 -> f32 -> f32 := SFmul f32_prec f32_emax.
Definition fdiv : f32 -> f32 -> f32 := SFdiv f32_prec f32_emax.

(** The float nearest to [m * 2 ^ e]. *)
Definition nearest (m e : Z) : f32 :=
  binary_normalize f32_prec f32_emax m e false.

(** The float of an integer: [.float()] of a [uint8], and a Python [int]
    that meets a float tensor.  It is exact up to [2 ^ 24]. *)
Definition of_Z (n : Z) : f32 := nearest n 0.

(** The number a float denotes. *)
Definition val (x : f32) : scalar :=
  match x with
  | S754_zero _ => Fin 0
  | S754_infinity false => PInf
  | S754_infinity true => NInf
  | S754_nan => NaN
  | S754_finite s m e =>
      let a := inject_Z (Zpos m) * 2 ^ e in
      Fin (if s then - a else a)
  end.

(** The number of a finite float. *)
Definition number (x : f32) : Q :=
  match val x with
  | Fin q => q
  | _ => 0
  end.

Definition is_nan (x : f32) : bool :=
  match x with
  | S754_nan => true
  | _ => false
  end.

Definition is_zero (x : f32) : bool :=
  match x with
  | S754_zero _ => true
  | _ => false
  end.

(** Neither a zero, nor an infinity, nor NaN. *)
Definition finite_nonzero (x : f32) : bool :=
  match x with
  | S754_finite _ _ _ => true
  | _ => false
  end.

(** [x < y] on scalars; false when one of them is NaN. *)
Definition sltb (x y : scalar) : bool :=
  match x, y with
  | Fin p, Fin q => Qltb p q
  | NInf, Fin _ | NInf, PInf | Fin _, PInf => true
  | _, _ => false
  end.

Definition f32_lt (x y : f32) : bool := sltb (val x) (val y).

(** [c / t] for a Python number [c] and a tensor [t] is
    [Tensor.__rtruediv__], which torch computes as [t.reciprocal() * c],
    with two roundings; the quotient taken directly rounds once.  The
    properties below are proved of both. *)
Inductive scalar_division : Type :=
| ReciprocalTimes
| TrueDivision.

Definition rdiv (k : scalar_division) (c x : f32) : f32 :=
  match k with
  | ReciprocalTimes => fmul (fdiv (of_Z 1) x) c
  | TrueDivision => fdiv c x
  end.

(** [Tensor.min()] and [Tensor.max()]: a NaN element is the result. *)
Definition f32_min2 (x y : f32) : f32 :=
  if is_nan y || f32_lt y x then y else x.

Definition f32_max2 (x y : f32) : f32 :=
  if is_nan y || f32_lt x y then y else x.

Definition f32_tensor_min (t : list f32) : result f32 :=
  match t with
  | [] => Raise RuntimeError
  | x :: xs => Ok (fold_left f32_min2 xs x)
  end.

Definition f32_tensor_max (t : list f32) : result f32 :=
  match t with
  | [] => Raise RuntimeError
  | x :: xs => Ok (fold_left f32_max2 xs x)
  end.

(** [# compute min and max] and [# extend interval to include zero].  The
    Python [0] enters the float arithmetic that follows as [+0.0]. *)
Definition f32_calibrate (t : list f32) : result (f32 * f32) :=
  min_val <- f32_tensor_min t ;;
  max_val <- f32_tensor_max t ;;
  let min_val := if f32_lt (of_Z 0) min_val then of_Z 0 else min_val in
  let max_val := if f32_lt max_val (of_Z 0) then of_Z 0 else max_val in
  Ok (min_val, max_val).

Section Float32.

Context {platform : Platform}.
Variable k : scalar_division.

(** [# compute scale] and [# compute zero point].  [round], [clamp] and the
    cast are exact: they are taken on the number the float denotes.  The
    sign of a zero does not show in what follows, so that [-min_val] is
    [SFopp min_val] also for the Python [0]. *)
Definition f32_affine_params (min_val max_val : f32) : f32 * Z :=
  let scale := rdiv k (of_Z 255) (fsub max_val min_val) in
  let zero_point :=
    to_uint8 (sclamp 0 255 (sround (val (fmul (SFopp min_val) scale)))) in
  (scale, zero_point).

(** One element of
    [(t * scale + zero_point).round().clamp(0, 255).to(torch.uint8)]. *)
Definition f32_quantize_value (scale : f32) (zero_point : Z) (v : f32) : Z :=
  to_uint8
    (sclamp 0 255 (sround (val (fadd (fmul v scale) (of_Z zero_point))))).

Definition f32_quantize_tensor (t : list f32) : result (qtensor * f32 * Z) :=
  ' (min_val, max_val) <- f32_calibrate t ;;
  let '(scale, zero_point) := f32_affine_params min_val max_val in
  let quantized := map (f32_quantize_value scale zero_point) t in
  Ok (quantized, scale, zero_point).

(** One element of [(t.float() - zero_point) / scale] in [forward]. *)
Definition f32_dequantize_value (scale : f32) (zero_point : Z) (q : Z) : f32 :=
  fdiv (fsub (of_Z q) (of_Z zero_point)) scale.

End Float32.

(** A float operation is exact at [x] and [y] when its result denotes what
    the operation on numbers gives. *)
Definition exact_at (fop : f32 -> f32 -> f32)
  (sop : scalar -> scalar -> scalar) (x y : f32) : Prop :=
  scalar_eq (val (fop x y)) (sop (val x) (val y)).

(** None of the float operations that derive the parameters of [t],
    quantize its element [v] and dequantize the result rounds. *)
Definition rounding_free {platform : Platform} (k : scalar_division)
  (t : list f32) (v : f32) : Prop :=
  match f32_calibrate t with
  | Ok (min_val, max_val) =>
      let '(scale, zero_point) := f32_affine_params k min_val max_val in
      let q := f32_quantize_value scale zero_point v in
      exact_at fsub ssub max_val min_val /\
      exact_at (rdiv k) sdiv (of_Z 255) (fsub max_val min_val) /\
      exact_at fmul smul (SFopp min_val) scale /\
      exact_at fmul smul v scale /\
      exact_at fadd sadd (fmul v scale) (of_Z zero_point) /\
      exact_at fdiv sdiv (fsub (of_Z q) (of_Z zero_point)) scale
  | Raise _ => False
  end.

(** Floats of the examples: [3e38] and [1e-37] are the floats nearest to
    these decimals, and [f32_weights] is the float tensor
    [[0.1, -0.25, 0.7]]. *)
Definition f32_3e38 : f32 := nearest 14791142 104.
Definition f32_1e_37 : f32 := nearest 8920298 (-146).

Definition f32_weights : list f32 :=
  [nearest 13421773 (-27); SFopp (nearest 1 (-2)); nearest 11744051 (-24)].

(** What the properties of the bytes are checked with: a test on every
    byte, and the test that two scalars denote the same value. *)
Definition all_bytes (p : Z -> bool) : bool :=
  forallb (fun n => p (Z.of_nat n)) (seq 0 256).

Definition scalar_eqb (x y : scalar) : bool :=
  match x, y with
  | Fin p, Fin q => Qeq_bool p q
  | PInf, PInf | NInf, NInf | NaN, NaN => true
  | _, _ => false
  end.

(** The unit roundoff of binary32, [2 ^ -24]. *)
Definition u32 : Q := 1 # 16777216.

(** A float operation is correctly rounded at [x] and [y]: its result is
    finite and within the relative error [2 ^ -24] of what the operation on
    numbers gives.  Rounding to nearest has this error wherever the result
    neither overflows nor underflows. *)
Definition rounded_at (fop : f32 -> f32 -> f32)
  (sop : scalar -> scalar -> scalar) (x y : f32) : Prop :=
  match val (fop x y), sop (val x) (val y) with
  | Fin r, Fin e => Qabs (r - e) <= u32 * Qabs e
  | _, _ => False
  end.

Definition rdiv_rounded_at (k : scalar_division) (c x : f32) : Prop :=
  match k with
  | ReciprocalTimes =>
      rounded_at fdiv sdiv (of_Z 1) x /\
      rounded_at fmul smul (fdiv (of_Z 1) x) c
  | TrueDivision => rounded_at fdiv sdiv c x
  end.

(** Each of the float operations that derive the parameters of [t],
    quantize its element [v] and dequantize the result is correctly
    rounded. *)
Definition correctly_rounded {platform : Platform} (k : scalar_division)
  (t : list f32) (v : f32) : Prop :=
  match f32_calibrate t with
  | Ok (min_val, max_val) =>
      let '(scale, zero_point) := f32_affine_params k min_val max_val in
      let q := f32_quantize_value scale zero_point v in
      rounded_at fsub ssub max_val min_val /\
      rdiv_rounded_at k (of_Z 255) (fsub max_val min_val) /\
      rounded_at fmul smul (SFopp min_val) scale /\
      rounded_at fmul smul v scale /\
      rounded_at fadd sadd (fmul v scale) (of_Z zero_point) /\
      rounded_at fdiv sdiv (fsub (of_Z q) (of_Z zero_point)) scale
  | Raise _ => False
  end.

(** [d] is within [c] quantization steps, [c / scale], of [v]. *)
Definition within_steps (c : Q) (scale : scalar) (d : scalar) (v : Q) : Prop :=
  sleb (sabs (ssub d (Fin v))) (sdiv (Fin c) scale) = true.

(** * Properties *)

(** ** Comparisons and rounding *)

Lemma Qltb_lt (x y : Q) : Qltb x y = true <-> x < y.
Proof.
  unfold Qltb. rewrite negb_true_iff, <- not_true_iff_false, Qle_bool_iff.
  split; [apply Qnot_le_lt | apply Qlt_not_le].
Qed.

Lemma Qltb_ge (x y : Q) : Qltb x y = false <-> y <= x.
Proof.
  unfold Qltb. rewrite negb_false_iff. apply Qle_bool_iff.
Qed.

(** Case analysis on every comparison in sight. *)
Ltac qcases :=
  repeat match goal with
  | |- context [Qltb ?x ?y] =>
      let H := fresh "H" in
      destruct (Qltb x y) eqn:H;
      [apply Qltb_lt in H | apply Qltb_ge in H]
  | H : context [Qltb ?x ?y] |- _ =>
      let H' := fresh "H" in
      destruct (Qltb x y) eqn:H';
      [apply Qltb_lt in H' | apply Qltb_ge in H']
  end.

#[global] Instance Qltb_comp : Proper (Qeq ==> Qeq ==> eq) Qltb.
Proof.
  intros x x' Ex y y' Ey.
  destruct (Qltb x' y') eqn:H.
  - apply Qltb_lt. apply Qltb_lt in H. now rewrite Ex, Ey.
  - apply Qltb_ge. apply Qltb_ge in H. now rewrite Ex, Ey.
Qed.

Lemma inject_Z_succ (n : Z) : inject_Z (n + 1) == inject_Z n + 1.
Proof. now rewrite inject_Z_plus. Qed.

Lemma round_half_even_bounds (q : Q) :
  q - (1 # 2) <= inject_Z (round_half_even q) <= q + (1 # 2).
Proof.
  unfold round_half_even.
  pose proof (Qfloor_le q) as Hlo. pose proof (Qlt_floor q) as Hhi.
  rewrite inject_Z_succ in Hhi.
  qcases; try destruct (Z.even (Qfloor q)); rewrite ?inject_Z_succ; lra.
Qed.

Lemma inject_Z_le_half (m n : Z) :
  inject_Z m <= inject_Z n + (1 # 2) -> (m <= n)%Z.
Proof.
  intros H. apply Z.lt_succ_r. rewrite Zlt_Qlt.
  unfold Z.succ. rewrite inject_Z_succ. lra.
Qed.

Lemma round_half_even_le (q : Q) (n : Z) :
  q <= inject_Z n -> (round_half_even q <= n)%Z.
Proof.
  intros H. pose proof (round_half_even_bounds q).
  apply inject_Z_le_half. lra.
Qed.

Lemma round_half_even_ge (q : Q) (n : Z) :
  inject_Z n <= q -> (n <= round_half_even q)%Z.
Proof.
  intros H. pose proof (round_half_even_bounds q).
  apply inject_Z_le_half. lra.
Qed.

Lemma round_half_even_Z (n : Z) : round_half_even (inject_Z n) = n.
Proof.
  apply Z.le_antisymm;
    [apply round_half_even_le | apply round_half_even_ge]; lra.
Qed.

#[global] Instance round_half_even_comp : Proper (Qeq ==> eq) round_half_even.
Proof.
  intros p q E. unfold round_half_even.
  rewrite (Qfloor_comp _ _ E).
  assert (E' : p - inject_Z (Qfloor q) == q - inject_Z (Qfloor q))
    by now rewrite E.
  now rewrite (Qltb_comp _ _ E' _ _ (Qeq_refl _)),
              (Qltb_comp _ _ (Qeq_refl _) _ _ E').
Qed.

(** ** Clamping and the cast *)

Lemma clamp_byte_range (n : Z) : (0 <= clamp_byte n <= 255)%Z.
Proof. unfold clamp_byte. lia. Qed.

Lemma Qclamp_cases (lo hi q : Q) :
  lo <= hi ->
  (q < lo /\ Qclamp lo hi q = lo) \/
  (hi < q /\ Qclamp lo hi q = hi) \/
  (lo <= q <= hi /\ Qclamp lo hi q = q).
Proof.
  intros H. unfold Qclamp.
  destruct (Qltb q lo) eqn:H1; [apply Qltb_lt in H1 | apply Qltb_ge in H1].
  - destruct (Qltb hi lo) eqn:H2;
      [apply Qltb_lt in H2; lra | apply Qltb_ge in H2].
    now left.
  - destruct (Qltb hi q) eqn:H2;
      [apply Qltb_lt in H2 | apply Qltb_ge in H2].
    + right. now left.
    + right. right. now split.
Qed.

Lemma Qclamp_inject_Z (n : Z) :
  Qclamp 0 255 (inject_Z n) == inject_Z (clamp_byte n).
Proof.
  unfold clamp_byte.
  destruct (Qclamp_cases 0 255 (inject_Z n)) as [[H ->]|[[H ->]|[[H1 H2] ->]]];
    [lra | | | ].
  - change 0 with (inject_Z 0) in H. rewrite <- Zlt_Qlt in H.
    now replace (Z.min (Z.max n 0) 255) with 0%Z by lia.
  - change 255 with (inject_Z 255) in H. rewrite <- Zlt_Qlt in H.
    now replace (Z.min (Z.max n 0) 255) with 255%Z by lia.
  - change 0 with (inject_Z 0) in H1. change 255 with (inject_Z 255) in H2.
    rewrite <- Zle_Qle in H1, H2.
    now replace (Z.min (Z.max n 0) 255) with n by lia.
Qed.

#[global] Instance Qtrunc_comp : Proper (Qeq ==> eq) Qtrunc.
Proof.
  intros p q E. unfold Qtrunc.
  rewrite (Qfloor_comp _ _ E), (Qceiling_comp _ _ E). now rewrite E.
Qed.

Lemma Qtrunc_Z (n : Z) : Qtrunc (inject_Z n) = n.
Proof.
  unfold Qtrunc. rewrite Qfloor_Z, Qceiling_Z. now destruct (Qltb _ _).
Qed.

Section CastFacts.

Context {platform : Platform}.

Lemma to_uint8_range (x : scalar) : (0 <= to_uint8 x < 256)%Z.
Proof.
  destruct x; simpl; try apply nan_to_uint8_range.
  apply Z.mod_pos_bound. lia.
Qed.

(** A byte survives the cast unchanged. *)
Lemma to_uint8_byte (q : Q) (n : Z) :
  q == inject_Z n -> (0 <= n <= 255)%Z -> to_uint8 (Fin q) = n.
Proof.
  intros E Hn. simpl. rewrite E, Qtrunc_Z. apply Z.mod_small. lia.
Qed.

(** Rounding, clamping and casting a number gives the clamped rounding. *)
Lemma to_uint8_clamp_round (q : Q) :
  to_uint8 (sclamp 0 255 (sround (Fin q))) = clamp_byte (round_half_even q).
Proof.
  unfold sround, sclamp.
  apply to_uint8_byte; [apply Qclamp_inject_Z | apply clamp_byte_range].
Qed.

(** Rounding commutes with the clamp to [0, 255]. *)
Lemma round_half_even_clamp (q : Q) :
  round_half_even (Qclamp 0 255 q) = clamp_byte (round_half_even q).
Proof.
  unfold clamp_byte.
  destruct (Qclamp_cases 0 255 q) as [[H ->]|[[H ->]|[[H1 H2] ->]]];
    [lra | | | ].
  - change 0 with (inject_Z 0). rewrite round_half_even_Z.
    assert (round_half_even q <= 0)%Z by (apply round_half_even_le; change (inject_Z 0) with 0; lra).
    lia.
  - change 255 with (inject_Z 255). rewrite round_half_even_Z.
    assert (255 <= round_half_even q)%Z
      by (apply round_half_even_ge; change (inject_Z 255) with 255; lra).
    lia.
  - assert (0 <= round_half_even q)%Z by (apply round_half_even_ge; change (inject_Z 0) with 0; lra).
    assert (round_half_even q <= 255)%Z
      by (apply round_half_even_le; change (inject_Z 255) with 255; lra).
    lia.
Qed.

Lemma to_uint8_round_clamp (x : scalar) :
  to_uint8 (sround (sclamp 0 255 x)) = to_uint8 (sclamp 0 255 (sround x)).
Proof.
  destruct x as [q| | |]; try reflexivity.
  rewrite to_uint8_clamp_round. simpl sclamp. simpl sround.
  apply to_uint8_byte; [| apply clamp_byte_range].
  now rewrite round_half_even_clamp.
Qed.

End CastFacts.

(** ** Calibration *)

Lemma fold_left_Qmin2 (xs : list Q) (x : Q) :
  is_min (x :: xs) (fold_left Qmin2 xs x).
Proof.
  revert x. induction xs as [|y ys IH]; intros x; simpl fold_left.
  - split; [now left | intros v [<-|[]]; lra].
  - destruct (IH (Qmin2 x y)) as [Hin Hle]. split.
    + destruct Hin as [Hin|Hin]; [| now right; right].
      rewrite <- Hin. unfold Qmin2. destruct (Qltb y x); simpl; auto.
    + assert (Hm : Qmin2 x y <= x /\ Qmin2 x y <= y)
        by (unfold Qmin2; qcases; lra).
      pose proof (Hle _ (or_introl eq_refl)) as H0.
      intros v [<-|[<-|Hv]]; [lra | lra | apply Hle; now right].
Qed.

Lemma fold_left_Qmax2 (xs : list Q) (x : Q) :
  is_max (x :: xs) (fold_left Qmax2 xs x).
Proof.
  revert x. induction xs as [|y ys IH]; intros x; simpl fold_left.
  - split; [now left | intros v [<-|[]]; lra].
  - destruct (IH (Qmax2 x y)) as [Hin Hle]. split.
    + destruct Hin as [Hin|Hin]; [| now right; right].
      rewrite <- Hin. unfold Qmax2. destruct (Qltb x y); simpl; auto.
    + assert (Hm : x <= Qmax2 x y /\ y <= Qmax2 x y)
        by (unfold Qmax2; qcases; lra).
      pose proof (Hle _ (or_introl eq_refl)) as H0.
      intros v [<-|[<-|Hv]]; [lra | lra | apply Hle; now right].
Qed.

Lemma tensor_min_spec (t : tensor) (m : Q) :
  tensor_min t = Ok m -> is_min t m.
Proof.
  destruct t as [|x xs]; [discriminate|].
  intros [= <-]. apply fold_left_Qmin2.
Qed.

Lemma tensor_max_spec (t : tensor) (m : Q) :
  tensor_max t = Ok m -> is_max t m.
Proof.
  destruct t as [|x xs]; [discriminate|].
  intros [= <-]. apply fold_left_Qmax2.
Qed.

(** What [calibrate] returns, in terms of the extrema of the tensor. *)
Lemma calibrate_inv (t : tensor) (min_val max_val : Q) :
  calibrate t = Ok (min_val, max_val) ->
  exists lo hi,
    tensor_min t = Ok lo /\ tensor_max t = Ok hi /\
    min_val == Qmin 0 lo /\ max_val == Qmax 0 hi /\
    min_val <= 0 <= max_val /\
    forall v, In v t -> min_val <= v <= max_val.
Proof.
  unfold calibrate.
  destruct (tensor_min t) as [lo|] eqn:Hlo; [|discriminate].
  destruct (tensor_max t) as [hi|] eqn:Hhi; [|discriminate].
  simpl. intros [= <- <-]. exists lo, hi.
  destruct (tensor_min_spec _ _ Hlo) as [_ Hmin].
  destruct (tensor_max_spec _ _ Hhi) as [_ Hmax].
  repeat split; try reflexivity.
  - destruct (Qltb 0 lo) eqn:H; [apply Qltb_lt in H | apply Qltb_ge in H].
    + symmetry. apply Q.min_l. lra.
    + symmetry. apply Q.min_r. lra.
  - destruct (Qltb hi 0) eqn:H; [apply Qltb_lt in H | apply Qltb_ge in H].
    + symmetry. apply Q.max_l. lra.
    + symmetry. apply Q.max_r. lra.
  - qcases; lra.
  - qcases; lra.
  - specialize (Hmin _ H). qcases; lra.
  - specialize (Hmax _ H). qcases; lra.
Qed.

(** C5.  Calibration of a tensor that has elements returns
    [(min(0, min(elements)), max(0, max(elements)))], where the two extrema
    are the least and the greatest element of the tensor; the range it
    returns contains zero. *)
Theorem calibrate_zero_inclusive (t : tensor) :
  t <> [] ->
  exists lo hi min_val max_val,
    is_min t lo /\ is_max t hi /\
    calibrate t = Ok (min_val, max_val) /\
    min_val == Qmin 0 lo /\ max_val == Qmax 0 hi /\
    min_val <= 0 <= max_val.
Proof.
  intros Ht. destruct t as [|x xs]; [contradiction|].
  destruct (calibrate (x :: xs)) as [[min_val max_val]|e] eqn:Hc;
    [| discriminate Hc].
  destruct (calibrate_inv _ _ _ Hc) as (lo & hi & Hlo & Hhi & Emin & Emax & H0 & _).
  exists lo, hi, min_val, max_val.
  split; [now apply tensor_min_spec|].
  split; [now apply tensor_max_spec|].
  auto.
Qed.

Lemma calibrate_zero_inclusive_witness :
  [3; -2; 1 # 2] <> [] /\
  exists lo hi min_val max_val,
    is_min [3; -2; 1 # 2] lo /\ is_max [3; -2; 1 # 2] hi /\
    calibrate [3; -2; 1 # 2] = Ok (min_val, max_val) /\
    min_val == Qmin 0 lo /\ max_val == Qmax 0 hi /\
    min_val <= 0 <= max_val.
Proof.
  split; [discriminate|].
  apply calibrate_zero_inclusive. discriminate.
Defined.

(** ** Affine parameters *)

Section AffineFacts.

Context {platform : Platform}.

Lemma sdiv_Fin_pos (p q : Q) : 0 < q -> sdiv (Fin p) (Fin q) = Fin (p / q).
Proof.
  intros H. unfold sdiv.
  destruct (Qeq_bool q 0) eqn:E; [|reflexivity].
  apply Qeq_bool_eq in E. lra.
Qed.

(** The parameters of a range that is not a single point. *)
Lemma affine_params_proper (min_val max_val : Q) :
  min_val < max_val ->
  affine_params min_val max_val =
    (Fin (255 / (max_val - min_val)),
     clamp_byte (round_half_even (- min_val * (255 / (max_val - min_val))))).
Proof.
  intros H. unfold affine_params.
  rewrite sdiv_Fin_pos by lra.
  unfold smul. now rewrite to_uint8_clamp_round.
Qed.

End AffineFacts.

(** C2.  [layer_zero_weight] has a weight whose elements are all zero: the
    range is the single point 0, the scale [quantize_linear] returns is
    [255 / 0], an infinity and no finite number, and the zero point and the
    quantized weight are casts of NaN.  No fallback to
    [scale = 1.0, zero_point = 0] takes place. *)
Theorem all_zero_weight_infinite_scale (platform : Platform) :
  exists p,
    quantize_linear layer_zero_weight = Ok p /\
    weight_scale p = PInf /\
    (forall q, weight_scale p <> Fin q) /\
    weight_zero_point p = nan_to_uint8 /\
    weight_quantized p = [nan_to_uint8; nan_to_uint8].
Proof.
  eexists. split; [reflexivity|]. simpl.
  repeat split. discriminate.
Qed.

(** ** The quantized values *)

Section QuantizeFacts.

Context {platform : Platform}.

(** The value the cast receives is NaN or a whole number of [0..255], which
    the cast returns as it is. *)
Lemma clamped_value_byte (scale : scalar) (zero_point : Z) (v : Q) :
  clamped_value scale zero_point v = NaN \/
  exists n : Z,
    (0 <= n <= 255)%Z /\
    scalar_eq (clamped_value scale zero_point v) (Fin (inject_Z n)) /\
    quantize_value scale zero_point v = n.
Proof.
  unfold quantize_value, clamped_value.
  destruct (sadd (smul (Fin v) scale) (Fin (inject_Z zero_point)))
    as [q| | |]; [| | | now left]; right.
  - exists (clamp_byte (round_half_even q)).
    split; [apply clamp_byte_range|].
    split; [apply Qclamp_inject_Z | apply to_uint8_clamp_round].
  - exists 255%Z. split; [lia | split; reflexivity].
  - exists 0%Z. split; [lia | split; reflexivity].
Qed.

Lemma quantize_value_range (scale : scalar) (zero_point : Z) (v : Q) :
  (0 <= quantize_value scale zero_point v <= 255)%Z.
Proof.
  pose proof (to_uint8_range (clamped_value scale zero_point v)).
  unfold quantize_value. lia.
Qed.

Lemma quantize_tensor_inv (t : tensor) (qt : qtensor) (scale : scalar)
  (zero_point : Z) :
  quantize_tensor t = Ok (qt, scale, zero_point) ->
  exists min_val max_val,
    calibrate t = Ok (min_val, max_val) /\
    affine_params min_val max_val = (scale, zero_point) /\
    qt = map (quantize_value scale zero_point) t.
Proof.
  unfold quantize_tensor.
  destruct (calibrate t) as [[min_val max_val]|] eqn:Hc; [|discriminate].
  simpl. destruct (affine_params min_val max_val) as [s z] eqn:Hp.
  intros [= <- <- <-]. now exists min_val, max_val.
Qed.

Lemma calibrate_nonempty (t : tensor) :
  t <> [] -> exists min_val max_val, calibrate t = Ok (min_val, max_val).
Proof.
  destruct t as [|x xs]; [contradiction|]. intros _.
  unfold calibrate. simpl. eauto.
Qed.

Lemma quantize_tensor_nonempty (t : tensor) :
  t <> [] ->
  exists qt scale zero_point, quantize_tensor t = Ok (qt, scale, zero_point).
Proof.
  intros Ht. destruct (calibrate_nonempty t Ht) as (mn & mx & Hc).
  unfold quantize_tensor. rewrite Hc. simpl.
  destruct (affine_params mn mx). eauto.
Qed.

End QuantizeFacts.

(** C6.  Whatever the elements, the scale and the zero point, every
    quantized element is in [0, 255]: the float handed to the cast is
    already clamped -- it is NaN or a whole number of [0..255] -- so the
    cast returns that number and nothing wraps around.  The same holds of
    the tensor [quantize_tensor] returns, which fails on a tensor without
    elements only. *)
Theorem quantized_values_in_range {platform : Platform} (t : tensor)
  (scale : scalar) (zero_point : Z) :
  Forall (fun q => (0 <= q <= 255)%Z) (map (quantize_value scale zero_point) t) /\
  (forall v, In v t ->
     clamped_value scale zero_point v = NaN \/
     exists n : Z,
       (0 <= n <= 255)%Z /\
       scalar_eq (clamped_value scale zero_point v) (Fin (inject_Z n)) /\
       quantize_value scale zero_point v = n) /\
  match quantize_tensor t with
  | Ok (qt, _, _) => Forall (fun q => (0 <= q <= 255)%Z) qt
  | Raise _ => t = []
  end.
Proof.
  assert (H : forall s z, Forall (fun q => (0 <= q <= 255)%Z)
                            (map (quantize_value s z) t)).
  { intros s z. apply Forall_forall. intros q Hq.
    apply in_map_iff in Hq. destruct Hq as (v & <- & _).
    apply quantize_value_range. }
  split; [apply H|].
  split; [intros v _; apply clamped_value_byte|].
  destruct (quantize_tensor t) as [[[qt s] z]|e] eqn:Hq.
  - apply quantize_tensor_inv in Hq. destruct Hq as (mn & mx & _ & _ & ->).
    apply H.
  - destruct t as [|x xs]; [reflexivity|].
    destruct (quantize_tensor_nonempty (x :: xs)) as (qt & s & z & Hq');
      [discriminate | congruence].
Qed.

(** ** The round trip, on numbers *)

Lemma clamp_byte_id (n : Z) : (0 <= n <= 255)%Z -> clamp_byte n = n.
Proof. unfold clamp_byte. lia. Qed.

(** Clamping the rounding of a number of [-1/2, 255 + 1/2] moves it by a
    half at most. *)
Lemma clamp_round_error (x : Q) :
  - (1 # 2) <= x <= 255 + (1 # 2) ->
  - (1 # 2) <= inject_Z (clamp_byte (round_half_even x)) - x <= 1 # 2.
Proof.
  intros Hx. pose proof (round_half_even_bounds x) as HR.
  set (R := round_half_even x) in *.
  destruct (Z.lt_ge_cases R 0) as [H|H];
    [| destruct (Z.lt_ge_cases 255 R) as [H'|H']].
  - replace (clamp_byte R) with 0%Z by (unfold clamp_byte; lia).
    assert (HQ : inject_Z R <= inject_Z (-1)) by (rewrite <- Zle_Qle; lia).
    change (inject_Z (-1)) with (-1) in HQ. change (inject_Z 0) with 0. lra.
  - replace (clamp_byte R) with 255%Z by (unfold clamp_byte; lia).
    assert (HQ : inject_Z 256 <= inject_Z R) by (rewrite <- Zle_Qle; lia).
    change (inject_Z 256) with 256 in HQ. change (inject_Z 255) with 255. lra.
  - rewrite clamp_byte_id by lia. lra.
Qed.

(** The arithmetic of the round trip, for a range that is not a point. *)
Lemma round_trip_arith (min_val max_val v : Q) :
  min_val <= 0 <= max_val -> min_val < max_val ->
  min_val <= v <= max_val ->
  let s := 255 / (max_val - min_val) in
  let zp := clamp_byte (round_half_even (- min_val * s)) in
  let q := clamp_byte (round_half_even (v * s + inject_Z zp)) in
  Qabs ((inject_Z q + - inject_Z zp) / s + - v) <= (1 # 2) / s.
Proof.
  intros H0 Hlt Hv s zp q.
  assert (Hs : s * (max_val - min_val) == 255)
    by (unfold s; field; lra).
  assert (Hpos : 0 < s)
    by (unfold s; apply Qlt_shift_div_l; lra).
  assert (Hmn : min_val * s <= 0 * s) by (apply Qmult_le_compat_r; lra).
  assert (Hmx : 0 * s <= max_val * s) by (apply Qmult_le_compat_r; lra).
  assert (Hvl : min_val * s <= v * s) by (apply Qmult_le_compat_r; lra).
  assert (Hvh : v * s <= max_val * s) by (apply Qmult_le_compat_r; lra).
  pose proof (round_half_even_bounds (- min_val * s)) as Hz.
  assert (Hzp : zp = round_half_even (- min_val * s)).
  { unfold zp. apply clamp_byte_id. split.
    - apply round_half_even_ge. change (inject_Z 0) with 0. lra.
    - apply round_half_even_le. change (inject_Z 255) with 255. lra. }
  rewrite <- Hzp in Hz.
  pose proof (clamp_round_error (v * s + inject_Z zp)) as He.
  fold q in He.
  assert (Hx : - (1 # 2) <= v * s + inject_Z zp <= 255 + (1 # 2)) by lra.
  specialize (He Hx).
  set (e := inject_Z q - (v * s + inject_Z zp)) in *.
  assert (E : (inject_Z q + - inject_Z zp) / s + - v == e / s)
    by (unfold e; field; lra).
  rewrite E. apply Qabs_Qle_condition. split.
  - apply Qle_shift_div_l; [exact Hpos|].
    assert (- ((1 # 2) / s) * s == - (1 # 2)) by (field; lra). lra.
  - apply Qle_shift_div_r; [exact Hpos|].
    assert ((1 # 2) / s * s == 1 # 2) by (field; lra). lra.
Qed.

Section RoundTripFacts.

Context {platform : Platform}.

Lemma inf_of_sign_zero (q : Q) : q == 0 -> inf_of_sign q = NaN.
Proof. intros E. unfold inf_of_sign. qcases; try lra. reflexivity. Qed.

(** The parameters of the range that is the single point 0. *)
Lemma affine_params_point (min_val max_val : Q) :
  min_val == 0 -> max_val == 0 ->
  affine_params min_val max_val = (PInf, nan_to_uint8).
Proof.
  intros Emin Emax. unfold affine_params, sdiv.
  rewrite (Qeq_eq_bool (max_val - min_val) 0) by lra.
  change (inf_of_sign 255) with PInf. unfold smul.
  rewrite inf_of_sign_zero by lra. reflexivity.
Qed.

Lemma affine_params_cases (min_val max_val : Q) :
  min_val <= 0 <= max_val ->
  (min_val < max_val /\
   affine_params min_val max_val =
     (Fin (255 / (max_val - min_val)),
      clamp_byte (round_half_even (- min_val * (255 / (max_val - min_val)))))) \/
  (min_val == 0 /\ max_val == 0 /\
   affine_params min_val max_val = (PInf, nan_to_uint8)).
Proof.
  intros H. destruct (Qlt_le_dec min_val max_val) as [Hlt|Hle].
  - left. split; [exact Hlt | now apply affine_params_proper].
  - right. assert (min_val == 0) by lra. assert (max_val == 0) by lra.
    auto using affine_params_point.
Qed.

Lemma quantize_value_Fin (s : Q) (zp : Z) (v : Q) :
  quantize_value (Fin s) zp v =
    clamp_byte (round_half_even (v * s + inject_Z zp)).
Proof.
  unfold quantize_value, clamped_value, smul, sadd.
  apply to_uint8_clamp_round.
Qed.

Lemma round_trip_value (min_val max_val v : Q) (scale : scalar) (zp : Z) :
  min_val <= 0 <= max_val -> min_val <= v <= max_val ->
  affine_params min_val max_val = (scale, zp) ->
  within_half_step scale
    (dequantize_value scale zp (quantize_value scale zp v)) v.
Proof.
  intros H0 Hv Hp. unfold within_half_step.
  destruct (affine_params_cases _ _ H0) as [[Hlt Hp']|(Emin & Emax & Hp')];
    rewrite Hp' in Hp; injection Hp as <- <-.
  - assert (Hpos : 0 < 255 / (max_val - min_val))
      by (apply Qlt_shift_div_l; lra).
    rewrite quantize_value_Fin. unfold dequantize_value, ssub, sneg, sadd.
    rewrite !sdiv_Fin_pos by exact Hpos.
    unfold sabs, sleb. apply Qle_bool_iff.
    now apply round_trip_arith.
  - unfold dequantize_value, ssub, sneg, sadd, sdiv, sabs, sleb.
    apply Qle_bool_iff. apply Qabs_Qle_condition. lra.
Qed.

End RoundTripFacts.

(** ** Scalars that denote the same value *)

#[global] Instance scalar_eq_equiv : Equivalence scalar_eq.
Proof.
  split.
  - intros [q| | |]; simpl; auto. reflexivity.
  - intros [p| | |] [q| | |]; simpl; auto. intros H. now symmetry.
  - intros [p| | |] [q| | |] [r| | |]; simpl; try tauto.
    intros H H'. now rewrite H.
Qed.

#[global] Instance inf_of_sign_comp : Proper (Qeq ==> eq) inf_of_sign.
Proof.
  intros p q E. unfold inf_of_sign.
  now rewrite (Qltb_comp _ _ (Qeq_refl 0) _ _ E),
    (Qltb_comp _ _ E _ _ (Qeq_refl 0)).
Qed.

#[global] Instance Qclamp_comp : Proper (Qeq ==> Qeq ==> Qeq ==> Qeq) Qclamp.
Proof.
  intros lo lo' El hi hi' Eh q q' E. unfold Qclamp.
  rewrite (Qltb_comp _ _ E _ _ El).
  destruct (Qltb q' lo').
  - rewrite (Qltb_comp _ _ Eh _ _ El). now destruct (Qltb hi' lo').
  - rewrite (Qltb_comp _ _ Eh _ _ E). now destruct (Qltb hi' q').
Qed.

Ltac scalar_cases :=
  repeat match goal with
         | x : scalar |- _ => destruct x
         end;
  simpl in *; try contradiction; try exact I; try reflexivity.

#[global] Instance sneg_comp : Proper (scalar_eq ==> scalar_eq) sneg.
Proof. intros x x' Hx. scalar_cases. now rewrite Hx. Qed.

#[global] Instance sadd_comp :
  Proper (scalar_eq ==> scalar_eq ==> scalar_eq) sadd.
Proof. intros x x' Hx y y' Hy. scalar_cases. now rewrite Hx, Hy. Qed.

#[global] Instance ssub_comp :
  Proper (scalar_eq ==> scalar_eq ==> scalar_eq) ssub.
Proof. intros x x' Hx y y' Hy. unfold ssub. now rewrite Hx, Hy. Qed.

#[global] Instance smul_comp :
  Proper (scalar_eq ==> scalar_eq ==> scalar_eq) smul.
Proof.
  intros x x' Hx y y' Hy. scalar_cases;
    try (now rewrite Hx, Hy); try (now rewrite Hx); try (now rewrite Hy).
Qed.

#[global] Instance sdiv_comp :
  Proper (scalar_eq ==> scalar_eq ==> scalar_eq) sdiv.
Proof.
  intros x x' Hx y y' Hy. scalar_cases.
  - rewrite (Qeqb_comp _ _ Hy 0 0 (Qeq_refl 0)).
    destruct (Qeq_bool q 0) eqn:E.
    + now rewrite Hx.
    + simpl. apply Qeq_bool_neq in E. now rewrite Hx, Hy.
  - rewrite Hy. now destruct (Qltb q 0).
  - rewrite Hy. now destruct (Qltb q 0).
Qed.

#[global] Instance sround_comp : Proper (scalar_eq ==> scalar_eq) sround.
Proof. intros x x' Hx. scalar_cases. now rewrite Hx. Qed.

#[global] Instance sclamp_comp (lo hi : Q) :
  Proper (scalar_eq ==> scalar_eq) (sclamp lo hi).
Proof. intros x x' Hx. scalar_cases. now rewrite Hx. Qed.

#[global] Instance sabs_comp : Proper (scalar_eq ==> scalar_eq) sabs.
Proof. intros x x' Hx. scalar_cases. now rewrite Hx. Qed.

#[global] Instance sleb_comp : Proper (scalar_eq ==> scalar_eq ==> eq) sleb.
Proof. intros x x' Hx y y' Hy. scalar_cases. now rewrite Hx, Hy. Qed.

#[global] Instance to_uint8_comp {platform : Platform} :
  Proper (scalar_eq ==> eq) to_uint8.
Proof. intros x x' Hx. scalar_cases. now rewrite Hx. Qed.

(** ** Bytes as floats *)

Lemma all_bytes_spec (p : Z -> bool) :
  all_bytes p = true -> forall n, (0 <= n <= 255)%Z -> p n = true.
Proof.
  unfold all_bytes. rewrite forallb_forall. intros H n Hn.
  specialize (H (Z.to_nat n)). rewrite Z2Nat.id in H by lia.
  apply H. apply in_seq. lia.
Qed.

Lemma scalar_eqb_eq (x y : scalar) : scalar_eqb x y = true -> scalar_eq x y.
Proof.
  destruct x, y; simpl; try discriminate; auto. apply Qeq_bool_eq.
Qed.

(** The float of a byte denotes the byte. *)
Lemma of_Z_byte (n : Z) :
  (0 <= n <= 255)%Z -> scalar_eq (val (of_Z n)) (Fin (inject_Z n)).
Proof.
  intros Hn. apply scalar_eqb_eq.
  apply (all_bytes_spec
           (fun n => scalar_eqb (val (of_Z n)) (Fin (inject_Z n))));
    [vm_compute; reflexivity | exact Hn].
Qed.

(** The difference of two bytes is exact. *)
Lemma fsub_bytes (q zp : Z) :
  (0 <= q <= 255)%Z -> (0 <= zp <= 255)%Z ->
  exact_at fsub ssub (of_Z q) (of_Z zp).
Proof.
  intros Hq Hzp. apply scalar_eqb_eq.
  apply (all_bytes_spec
           (fun zp => scalar_eqb (val (fsub (of_Z q) (of_Z zp)))
                        (ssub (val (of_Z q)) (val (of_Z zp)))));
    [| exact Hzp].
  apply (all_bytes_spec
           (fun q => all_bytes
              (fun zp => scalar_eqb (val (fsub (of_Z q) (of_Z zp)))
                           (ssub (val (of_Z q)) (val (of_Z zp))))));
    [vm_compute; reflexivity | exact Hq].
Qed.

(** A byte minus itself is a zero, and a zero plus a byte is the byte. *)
Lemma fsub_byte_self (zp : Z) :
  (0 <= zp <= 255)%Z -> is_zero (fsub (of_Z zp) (of_Z zp)) = true.
Proof.
  apply (all_bytes_spec (fun zp => is_zero (fsub (of_Z zp) (of_Z zp)))).
  vm_compute. reflexivity.
Qed.

Lemma fadd_zero_byte (s : bool) (zp : Z) :
  (0 <= zp <= 255)%Z ->
  scalar_eq (val (fadd (S754_zero s) (of_Z zp))) (Fin (inject_Z zp)).
Proof.
  intros Hzp. apply scalar_eqb_eq.
  apply (all_bytes_spec
           (fun zp => scalar_eqb (val (fadd (S754_zero s) (of_Z zp)))
                        (Fin (inject_Z zp))));
    [| exact Hzp].
  destruct s; vm_compute; reflexivity.
Qed.

Lemma val_SFopp (x : f32) : scalar_eq (val (SFopp x)) (sneg (val x)).
Proof.
  destruct x as [s|s| |s m e]; try destruct s; simpl; try exact I;
    try reflexivity.
  symmetry. apply Qopp_opp.
Qed.

Lemma val_Fin_not_nan (x : f32) (q : Q) : val x = Fin q -> is_nan x = false.
Proof. destruct x as [s|s| |s m e]; try destruct s; now simpl. Qed.

(** ** The parameters, in binary32 *)


(** Float rounding shows in the zero point: for the range [-41.0, 41.0]
    the product [41 * scale] is a float just below [127.5], and the zero
    point is [127]; on numbers the product is [127.5] and rounds to [128]. *)
Example f32_affine_params_41 (k : scalar_division) :
  snd (f32_affine_params (platform := cpu) k (SFopp (of_Z 41)) (of_Z 41)) = 127%Z /\
  snd (affine_params (platform := cpu) (-41) 41) = 128%Z.
Proof. split; [destruct k|]; vm_compute; reflexivity. Qed.

(** A range beyond the largest float, and a range so small that the
    quotient is: the scale is [0.0], resp. [+inf].  The range that is the
    single point 0 has the scale [+inf] as well, and the cast of NaN for
    zero point and codes, as on numbers. *)
Example f32_affine_params_overflow (k : scalar_division) :
  f32_affine_params (platform := cpu) k (SFopp f32_3e38) f32_3e38 =
    (S754_zero false, 0%Z) /\
  f32_affine_params (platform := cpu) k (SFopp f32_1e_37) (of_Z 0) =
    (S754_infinity false, 255%Z).
Proof. split; destruct k; vm_compute; reflexivity. Qed.

Example f32_affine_params_point {platform : Platform} (k : scalar_division) :
  f32_quantize_tensor k [of_Z 0; of_Z 0] =
    Ok ([nan_to_uint8; nan_to_uint8], S754_infinity false, nan_to_uint8).
Proof. destruct k; reflexivity. Qed.

(** ** The round trip, in binary32 *)

Lemma f32_quantize_tensor_inv {platform : Platform} (k : scalar_division)
  (t : list f32) (qt : qtensor) (scale : f32) (zero_point : Z) :
  f32_quantize_tensor k t = Ok (qt, scale, zero_point) ->
  exists min_val max_val,
    f32_calibrate t = Ok (min_val, max_val) /\
    f32_affine_params k min_val max_val = (scale, zero_point) /\
    qt = map (f32_quantize_value scale zero_point) t.
Proof.
  unfold f32_quantize_tensor.
  destruct (f32_calibrate t) as [[min_val max_val]|] eqn:Hc; [|discriminate].
  simpl. destruct (f32_affine_params k min_val max_val) as [s z] eqn:Hp.
  intros [= <- <- <-]. now exists min_val, max_val.
Qed.

Lemma f32_zero_point_range {platform : Platform} (k : scalar_division)
  (min_val max_val scale : f32) (zero_point : Z) :
  f32_affine_params k min_val max_val = (scale, zero_point) ->
  (0 <= zero_point <= 255)%Z.
Proof.
  unfold f32_affine_params. intros [= _ <-].
  match goal with |- (0 <= to_uint8 ?x <= 255)%Z =>
    pose proof (to_uint8_range x) end.
  lia.
Qed.

Lemma f32_quantize_value_range {platform : Platform} (scale : f32)
  (zero_point : Z) (v : f32) :
  (0 <= f32_quantize_value scale zero_point v <= 255)%Z.
Proof.
  unfold f32_quantize_value.
  match goal with |- (0 <= to_uint8 ?x <= 255)%Z =>
    pose proof (to_uint8_range x) end.
  lia.
Qed.

(** *** Calibration of finite floats *)

Lemma f32_lt_Fin (x y : f32) (p q : Q) :
  val x = Fin p -> val y = Fin q -> f32_lt x y = Qltb p q.
Proof. unfold f32_lt. now intros -> ->. Qed.

Lemma fold_left_f32_min2 (xs : list f32) (Xs : list Q) (x : f32) (X : Q) :
  map val xs = map Fin Xs -> val x = Fin X ->
  val (fold_left f32_min2 xs x) = Fin (fold_left Qmin2 Xs X).
Proof.
  revert Xs x X. induction xs as [|y ys IH]; intros [|Y Ys] x X Hm Hx;
    try discriminate Hm; [exact Hx|].
  simpl in Hm. injection Hm as Hy Hm. simpl fold_left.
  apply IH; [exact Hm|].
  unfold f32_min2, Qmin2.
  rewrite (val_Fin_not_nan _ _ Hy), (f32_lt_Fin _ _ _ _ Hy Hx). simpl.
  now destruct (Qltb Y X).
Qed.

Lemma fold_left_f32_max2 (xs : list f32) (Xs : list Q) (x : f32) (X : Q) :
  map val xs = map Fin Xs -> val x = Fin X ->
  val (fold_left f32_max2 xs x) = Fin (fold_left Qmax2 Xs X).
Proof.
  revert Xs x X. induction xs as [|y ys IH]; intros [|Y Ys] x X Hm Hx;
    try discriminate Hm; [exact Hx|].
  simpl in Hm. injection Hm as Hy Hm. simpl fold_left.
  apply IH; [exact Hm|].
  unfold f32_max2, Qmax2.
  rewrite (val_Fin_not_nan _ _ Hy), (f32_lt_Fin _ _ _ _ Hx Hy). simpl.
  now destruct (Qltb X Y).
Qed.

(** On finite floats calibration is exact: it returns the floats of what
    [calibrate] returns on their numbers. *)
Lemma f32_calibrate_values (t : list f32) (T : tensor) (min_val max_val : f32) :
  map val t = map Fin T ->
  f32_calibrate t = Ok (min_val, max_val) ->
  exists MN MX,
    calibrate T = Ok (MN, MX) /\
    val min_val = Fin MN /\ val max_val = Fin MX.
Proof.
  destruct t as [|x xs]; [discriminate|].
  destruct T as [|X Xs]; [discriminate|].
  intros Hm. simpl in Hm. injection Hm as Hx Hm.
  unfold f32_calibrate, calibrate, f32_tensor_min, f32_tensor_max,
    tensor_min, tensor_max, bind.
  pose proof (fold_left_f32_min2 _ _ _ _ Hm Hx) as Hmin.
  pose proof (fold_left_f32_max2 _ _ _ _ Hm Hx) as Hmax.
  set (mn := fold_left f32_min2 xs x) in *.
  set (mx := fold_left f32_max2 xs x) in *.
  assert (H0 : val (of_Z 0) = Fin 0) by reflexivity.
  rewrite (f32_lt_Fin _ _ _ _ H0 Hmin), (f32_lt_Fin _ _ _ _ Hmax H0).
  intros [= <- <-]. do 2 eexists. split; [reflexivity|].
  split.
  - now destruct (Qltb 0 (fold_left Qmin2 Xs X)).
  - now destruct (Qltb (fold_left Qmax2 Xs X) 0).
Qed.

Lemma within_half_step_comp (scale scale' d d' : scalar) (v : Q) :
  scalar_eq scale scale' -> scalar_eq d d' ->
  within_half_step scale' d' v -> within_half_step scale d v.
Proof.
  unfold within_half_step. intros Hs Hd H. now rewrite Hs, Hd.
Qed.

(** The difference of two bytes, as a number. *)
Lemma fsub_bytes_val (q zp : Z) :
  (0 <= q <= 255)%Z -> (0 <= zp <= 255)%Z ->
  scalar_eq (val (fsub (of_Z q) (of_Z zp)))
    (Fin (inject_Z q - inject_Z zp)).
Proof.
  intros Hq Hzp. pose proof (fsub_bytes _ _ Hq Hzp) as E.
  unfold exact_at in E.
  rewrite E, (of_Z_byte _ Hq), (of_Z_byte _ Hzp). reflexivity.
Qed.

(** *** Operations that do not round *)

(** The round trip of a number of the calibrated range, when none of the
    float operations rounds: what the arithmetic on numbers gives. *)
Lemma f32_round_trip_exact {platform : Platform} (k : scalar_division)
  (min_val max_val scale v : f32) (zero_point : Z) (MN MX V : Q) :
  val min_val = Fin MN -> val max_val = Fin MX -> val v = Fin V ->
  MN <= 0 <= MX -> MN <= V <= MX ->
  f32_affine_params k min_val max_val = (scale, zero_point) ->
  let q := f32_quantize_value scale zero_point v in
  exact_at fsub ssub max_val min_val ->
  exact_at (rdiv k) sdiv (of_Z 255) (fsub max_val min_val) ->
  exact_at fmul smul (SFopp min_val) scale ->
  exact_at fmul smul v scale ->
  exact_at fadd sadd (fmul v scale) (of_Z zero_point) ->
  exact_at fdiv sdiv (fsub (of_Z q) (of_Z zero_point)) scale ->
  within_half_step (val scale)
    (val (f32_dequantize_value scale zero_point q)) V.
Proof.
  intros Hmn Hmx HV H0 Hv Hp q Er Es Ez Em Ea Ed.
  pose proof (f32_zero_point_range _ _ _ _ _ Hp) as Hzp.
  pose proof (f32_quantize_value_range scale zero_point v) as Hqr. fold q in Hqr.
  pose proof (f_equal fst Hp) as Hscale. pose proof (f_equal snd Hp) as Hzero.
  unfold f32_affine_params in Hscale, Hzero. cbn [fst snd] in Hscale, Hzero.
  unfold exact_at in *. rewrite Hscale in Es.
  destruct (affine_params MN MX) as [S Z] eqn:HP.
  pose proof (f_equal fst HP) as HS. pose proof (f_equal snd HP) as HZ.
  unfold affine_params in HS, HZ. cbn [fst snd] in HS, HZ.
  (* the scale *)
  assert (E255 : scalar_eq (val (of_Z 255)) (Fin 255))
    by (vm_compute; reflexivity).
  assert (ES : scalar_eq (val scale) S).
  { rewrite Es, Er, E255, Hmx, Hmn, <- HS. reflexivity. }
  (* the zero point *)
  assert (EZ : zero_point = Z).
  { rewrite <- Hzero, <- HZ, Hscale, Ez, val_SFopp, Hmn, ES, <- HS.
    reflexivity. }
  (* the code *)
  assert (EQ : q = quantize_value S Z V).
  { unfold q, f32_quantize_value, quantize_value, clamped_value.
    rewrite Ea, Em, HV, ES, (of_Z_byte _ Hzp), EZ. reflexivity. }
  (* the dequantized value *)
  assert (ED : scalar_eq (val (f32_dequantize_value scale zero_point q))
                 (dequantize_value S Z q)).
  { unfold f32_dequantize_value, dequantize_value.
    rewrite Ed, (fsub_bytes_val _ _ Hqr Hzp), ES, EZ. reflexivity. }
  apply (within_half_step_comp _ _ _ _ _ ES ED).
  rewrite EQ. apply (round_trip_value MN MX); auto.
Qed.

(** *** Operations that round *)

Lemma round_half_even_lt (q : Q) (n : Z) :
  q < inject_Z n + (1 # 2) -> (round_half_even q <= n)%Z.
Proof.
  intros H. pose proof (round_half_even_bounds q) as HR.
  apply Z.lt_succ_r. rewrite Zlt_Qlt.
  unfold Z.succ. rewrite inject_Z_succ. lra.
Qed.

Lemma round_half_even_gt (q : Q) (n : Z) :
  inject_Z n - (1 # 2) < q -> (n <= round_half_even q)%Z.
Proof.
  intros H. pose proof (round_half_even_bounds q) as HR.
  apply Z.lt_succ_r. rewrite Zlt_Qlt.
  unfold Z.succ. rewrite inject_Z_succ. lra.
Qed.

(** Clamping the rounding of a number that is less than a half outside
    [-1/2, 255 + 1/2] moves it by a half and that excess at most. *)
Lemma clamp_round_error_near (x h : Q) :
  0 <= h -> h < 1 # 2 ->
  - (1 # 2) - h <= x <= 255 + (1 # 2) + h ->
  - (1 # 2) - h <= inject_Z (clamp_byte (round_half_even x)) - x <= (1 # 2) + h.
Proof.
  intros Hh Hh' Hx. pose proof (round_half_even_bounds x) as HR.
  set (R := round_half_even x) in *.
  destruct (Z.lt_ge_cases R 0) as [H|H];
    [| destruct (Z.lt_ge_cases 255 R) as [H'|H']].
  - replace (clamp_byte R) with 0%Z by (unfold clamp_byte; lia).
    assert (HQ : inject_Z R <= inject_Z (-1)) by (rewrite <- Zle_Qle; lia).
    change (inject_Z (-1)) with (-1) in HQ. change (inject_Z 0) with 0. lra.
  - replace (clamp_byte R) with 255%Z by (unfold clamp_byte; lia).
    assert (HQ : inject_Z 256 <= inject_Z R) by (rewrite <- Zle_Qle; lia).
    change (inject_Z 256) with 256 in HQ. change (inject_Z 255) with 255. lra.
  - rewrite clamp_byte_id by lia. lra.
Qed.

Lemma Qabs_bound (a b m : Q) :
  Qabs a <= u32 * Qabs b -> - m <= b <= m ->
  - (u32 * m) <= a <= u32 * m.
Proof.
  intros Ha Hb.
  assert (Hb' : Qabs b <= m) by (apply Qabs_Qle_condition; lra).
  assert (Hu : u32 * Qabs b <= u32 * m).
  { apply Qmult_le_l; [reflexivity | exact Hb']. }
  apply Qabs_Qle_condition. lra.
Qed.

(** The arithmetic of the round trip with operations that round. *)
Lemma round_trip_rounded_arith (min_val max_val v R s P p x d : Q) :
  min_val <= 0 <= max_val -> min_val <= v <= max_val ->
  0 < R -> 0 < s ->
  Qabs (R - (max_val - min_val)) <= u32 * Qabs (max_val - min_val) ->
  s * R <= 255 * ((1 + u32) * (1 + u32)) ->
  Qabs (P - - min_val * s) <= u32 * Qabs (- min_val * s) ->
  Qabs (p - v * s) <= u32 * Qabs (v * s) ->
  let zp := clamp_byte (round_half_even P) in
  Qabs (x - (p + inject_Z zp)) <= u32 * Qabs (p + inject_Z zp) ->
  let q := clamp_byte (round_half_even x) in
  Qabs (d - (inject_Z q - inject_Z zp) / s)
    <= u32 * Qabs ((inject_Z q - inject_Z zp) / s) ->
  Qabs (d - v) <= ((1 # 2) + (1 # 4096)) / s.
Proof.
  intros H0 Hv HR Hs ER Es EP Ep zp Ex q Ed.
  set (W := max_val - min_val) in *.
  set (A := W * s). set (B := - min_val * s) in *. set (C := v * s) in *.
  assert (HW : 0 <= W) by (unfold W; lra).
  assert (HB : 0 <= B) by (unfold B; apply Qmult_le_0_compat; lra).
  assert (HA : A == max_val * s + B) by (unfold A, B, W; ring).
  assert (HMX : 0 <= max_val * s) by (apply Qmult_le_0_compat; lra).
  assert (HC1 : - B <= C).
  { unfold B, C. setoid_replace (- (- min_val * s)) with (min_val * s) by ring.
    apply Qmult_le_compat_r; lra. }
  assert (HC2 : C <= max_val * s)
    by (unfold C; apply Qmult_le_compat_r; lra).
  (* the range and the scale *)
  assert (HRW : (1 - u32) * W <= R).
  { apply Qabs_Qle_condition in ER. rewrite (Qabs_pos W) in ER by exact HW.
    lra. }
  assert (HAR : (1 - u32) * A <= s * R).
  { setoid_replace ((1 - u32) * A) with (s * ((1 - u32) * W))
      by (unfold A; ring).
    apply Qmult_le_l; [exact Hs | exact HRW]. }
  assert (HAmax : (1 - u32) * A <= 255 * ((1 + u32) * (1 + u32))) by lra.
  unfold u32 in HAmax.
  (* the zero point *)
  apply Qabs_Qle_condition in EP. rewrite (Qabs_pos B) in EP by exact HB.
  unfold u32 in EP.
  pose proof (round_half_even_bounds P) as HzP.
  assert (Hzp : zp = round_half_even P).
  { unfold zp. apply clamp_byte_id. split.
    - apply round_half_even_gt. change (inject_Z 0) with 0. lra.
    - apply round_half_even_lt. change (inject_Z 255) with 255. lra. }
  rewrite <- Hzp in HzP.
  assert (Hzr : 0 <= inject_Z zp <= 255).
  { pose proof (clamp_byte_range (round_half_even P)) as Hr. fold zp in Hr.
    split; [change 0 with (inject_Z 0) | change 255 with (inject_Z 255)];
      rewrite <- Zle_Qle; lia. }
  (* the product and the sum *)
  pose proof (Qabs_bound _ _ (A + B) Ep) as Ep'.
  assert (HCb : - (A + B) <= C <= A + B) by lra.
  specialize (Ep' HCb). unfold u32 in Ep'.
  pose proof (Qabs_bound _ _ 512 Ex) as Ex'.
  assert (Hsum : - 512 <= p + inject_Z zp <= 512) by lra.
  specialize (Ex' Hsum). unfold u32 in Ex'.
  (* the code *)
  pose proof (clamp_round_error_near x (1 # 8192)) as Hq. fold q in Hq.
  assert (Hxr : - (1 # 2) - (1 # 8192) <= x <= 255 + (1 # 2) + (1 # 8192)) by lra.
  specialize (Hq ltac:(lra) ltac:(lra) Hxr).
  assert (Hqr : 0 <= inject_Z q <= 255).
  { pose proof (clamp_byte_range (round_half_even x)) as Hr. fold q in Hr.
    split; [change 0 with (inject_Z 0) | change 255 with (inject_Z 255)];
      rewrite <- Zle_Qle; lia. }
  (* the quotient *)
  set (D := inject_Z q - inject_Z zp) in *.
  assert (HDe : D == inject_Z q - inject_Z zp) by reflexivity.
  assert (HD : - 255 <= D <= 255) by (unfold D; lra).
  assert (Ed' : - (u32 * 255) <= d * s - D <= u32 * 255).
  { assert (E1 : d * s - D == (d - D / s) * s) by (field; lra).
    assert (HDs : Qabs (D / s) * s <= 255).
    { assert (E2 : Qabs (D / s) * s == Qabs D).
      { rewrite <- (Qabs_pos s) at 2 by lra. rewrite <- Qabs_Qmult.
        apply Qabs_wd. field. lra. }
      rewrite E2. apply Qabs_Qle_condition. lra. }
    assert (Hm : Qabs (d - D / s) * s <= u32 * Qabs (D / s) * s)
      by (apply Qmult_le_compat_r; lra).
    assert (Hn : Qabs ((d - D / s) * s) == Qabs (d - D / s) * s)
      by (rewrite Qabs_Qmult, (Qabs_pos s) by lra; reflexivity).
    assert (Hk : u32 * Qabs (D / s) * s <= u32 * 255).
    { rewrite <- Qmult_assoc. apply Qmult_le_l; [reflexivity | exact HDs]. }
    rewrite E1. apply Qabs_Qle_condition. rewrite Hn. lra. }
  unfold u32 in Ed'.
  (* the sum of the errors *)
  assert (Hfinal : - ((1 # 2) + (1 # 4096)) <= d * s - C <= (1 # 2) + (1 # 4096))
    by lra.
  assert (E : d - v == (d * s - C) / s) by (unfold C; field; lra).
  rewrite E. apply Qabs_Qle_condition. split.
  - apply Qle_shift_div_l; [exact Hs|].
    assert (- (((1 # 2) + (1 # 4096)) / s) * s == - ((1 # 2) + (1 # 4096)))
      by (field; lra).
    lra.
  - apply Qle_shift_div_r; [exact Hs|].
    assert (((1 # 2) + (1 # 4096)) / s * s == (1 # 2) + (1 # 4096))
      by (field; lra).
    lra.
Qed.

Lemma rounded_at_inv (fop : f32 -> f32 -> f32)
  (sop : scalar -> scalar -> scalar) (x y : f32) :
  rounded_at fop sop x y ->
  exists r e,
    val (fop x y) = Fin r /\ sop (val x) (val y) = Fin e /\
    Qabs (r - e) <= u32 * Qabs e.
Proof.
  unfold rounded_at.
  destruct (val (fop x y)) as [r| | |]; try contradiction.
  destruct (sop (val x) (val y)) as [e| | |]; try contradiction.
  intros H. now exists r, e.
Qed.

Lemma sadd_Fin_inv (x y : scalar) (a b e : Q) :
  scalar_eq x (Fin a) -> scalar_eq y (Fin b) -> sadd x y = Fin e ->
  e == a + b.
Proof.
  destruct x, y; simpl; try contradiction; try discriminate.
  intros Ha Hb [= <-]. now rewrite Ha, Hb.
Qed.

Lemma smul_Fin_inv (x y : scalar) (a b e : Q) :
  scalar_eq x (Fin a) -> scalar_eq y (Fin b) -> smul x y = Fin e ->
  e == a * b.
Proof.
  destruct x, y; simpl; try contradiction; try discriminate.
  intros Ha Hb [= <-]. now rewrite Ha, Hb.
Qed.

Lemma sdiv_Fin_inv (x y : scalar) (a b e : Q) :
  scalar_eq x (Fin a) -> scalar_eq y (Fin b) -> sdiv x y = Fin e ->
  ~ b == 0 /\ e == a / b.
Proof.
  destruct x as [p| | |], y as [q| | |]; simpl; try contradiction;
    try discriminate.
  intros Ha Hb. destruct (Qeq_bool q 0) eqn:E.
  - unfold inf_of_sign. destruct (Qltb 0 p); [discriminate|].
    destruct (Qltb p 0); discriminate.
  - apply Qeq_bool_neq in E. intros [= <-]. split.
    + now rewrite <- Hb.
    + now rewrite Ha, Hb.
Qed.

Lemma Qabs_rel_lower (r e : Q) :
  0 <= e -> Qabs (r - e) <= u32 * Qabs e -> (1 - u32) * e <= r <= (1 + u32) * e.
Proof.
  intros He H. rewrite (Qabs_pos e) in H by exact He.
  apply Qabs_Qle_condition in H. lra.
Qed.

(** The scale of a range that is a positive number, when the operations
    that form it are correctly rounded. *)
Lemma rdiv_rounded_scale (k : scalar_division) (x : f32) (R : Q) :
  val x = Fin R -> 0 <= R ->
  rdiv_rounded_at k (of_Z 255) x ->
  exists s,
    val (rdiv k (of_Z 255) x) = Fin s /\ 0 < R /\ 0 < s /\
    255 * ((1 - u32) * (1 - u32)) <= s * R <= 255 * ((1 + u32) * (1 + u32)).
Proof.
  intros HR Hnn H.
  assert (E255 : scalar_eq (val (of_Z 255)) (Fin 255))
    by (vm_compute; reflexivity).
  assert (E1 : scalar_eq (val (of_Z 1)) (Fin 1))
    by (vm_compute; reflexivity).
  assert (Hx : scalar_eq (val x) (Fin R)) by (rewrite HR; reflexivity).
  assert (Hu : 0 < 1 - u32) by reflexivity.
  destruct k; unfold rdiv_rounded_at in H; unfold rdiv.
  - destruct H as [H1 H2].
    apply rounded_at_inv in H1. destruct H1 as (r1 & e1 & Hr1 & He1 & B1).
    apply rounded_at_inv in H2. destruct H2 as (s & e2 & Hs & He2 & B2).
    destruct (sdiv_Fin_inv _ _ _ _ _ E1 Hx He1) as [HR0 Ee1].
    assert (Hpos : 0 < R)
      by (destruct (Qlt_le_dec 0 R) as [Hlt|Hle]; [exact Hlt|];
          exfalso; apply HR0; lra).
    assert (Hr1' : scalar_eq (val (fdiv (of_Z 1) x)) (Fin r1))
      by (rewrite Hr1; reflexivity).
    pose proof (smul_Fin_inv _ _ _ _ _ Hr1' E255 He2) as Ee2.
    assert (He1pos : 0 < e1).
    { rewrite Ee1. apply Qlt_shift_div_l; lra. }
    apply Qabs_rel_lower in B1; [|lra].
    assert (Hr1pos : 0 < r1).
    { assert (0 < (1 - u32) * e1) by (apply Qmult_lt_0_compat; lra). lra. }
    assert (He2pos : 0 < e2) by (rewrite Ee2; apply Qmult_lt_0_compat; lra).
    apply Qabs_rel_lower in B2; [|lra].
    assert (He1R : e1 * R == 1) by (rewrite Ee1; field; lra).
    exists s. split; [exact Hs|]. split; [exact Hpos|]. split; [|split].
    + assert (0 < (1 - u32) * e2) by (apply Qmult_lt_0_compat; lra). lra.
    + assert (Hr1R : (1 - u32) * (e1 * R) <= r1 * R)
        by (rewrite Qmult_assoc; apply Qmult_le_compat_r; lra).
      assert (HsR : (1 - u32) * e2 * R <= s * R)
        by (apply Qmult_le_compat_r; lra).
      assert (E : (1 - u32) * e2 * R == 255 * (1 - u32) * (r1 * R))
        by (rewrite Ee2; ring).
      assert (Hk : 255 * (1 - u32) * ((1 - u32) * (e1 * R))
                   <= 255 * (1 - u32) * (r1 * R)).
      { apply Qmult_le_l; [reflexivity | exact Hr1R]. }
      rewrite He1R in Hk. lra.
    + assert (Hr1R : r1 * R <= (1 + u32) * (e1 * R))
        by (rewrite Qmult_assoc; apply Qmult_le_compat_r; lra).
      assert (HsR : s * R <= (1 + u32) * e2 * R)
        by (apply Qmult_le_compat_r; lra).
      assert (E : (1 + u32) * e2 * R == 255 * (1 + u32) * (r1 * R))
        by (rewrite Ee2; ring).
      assert (Hk : 255 * (1 + u32) * (r1 * R)
                   <= 255 * (1 + u32) * ((1 + u32) * (e1 * R))).
      { apply Qmult_le_l; [reflexivity | exact Hr1R]. }
      rewrite He1R in Hk. lra.
  - apply rounded_at_inv in H. destruct H as (s & e & Hs & He & B).
    destruct (sdiv_Fin_inv _ _ _ _ _ E255 Hx He) as [HR0 Ee].
    assert (Hpos : 0 < R)
      by (destruct (Qlt_le_dec 0 R) as [Hlt|Hle]; [exact Hlt|];
          exfalso; apply HR0; lra).
    assert (Hepos : 0 < e) by (rewrite Ee; apply Qlt_shift_div_l; lra).
    apply Qabs_rel_lower in B; [|lra].
    assert (HeR : e * R == 255) by (rewrite Ee; field; lra).
    assert (Hu0 : 0 <= u32) by discriminate.
    exists s. split; [exact Hs|]. split; [exact Hpos|]. split; [|split].
    + assert (0 < (1 - u32) * e) by (apply Qmult_lt_0_compat; lra). lra.
    + assert (HsR : (1 - u32) * e * R <= s * R)
        by (apply Qmult_le_compat_r; lra).
      assert (E : (1 - u32) * e * R == (1 - u32) * (e * R)) by ring.
      rewrite E, HeR in HsR.
      assert (Hm : 255 * (1 - u32) * (1 - u32) <= 255 * (1 - u32) * 1).
      { apply Qmult_le_l; [reflexivity | lra]. }
      lra.
    + assert (HsR : s * R <= (1 + u32) * e * R)
        by (apply Qmult_le_compat_r; lra).
      assert (E : (1 + u32) * e * R == (1 + u32) * (e * R)) by ring.
      rewrite E, HeR in HsR.
      assert (Hm : 255 * (1 + u32) * 1 <= 255 * (1 + u32) * (1 + u32)).
      { apply Qmult_le_l; [reflexivity | lra]. }
      lra.
Qed.

(** The round trip of a number of the calibrated range, when the float
    operations are correctly rounded. *)
Lemma f32_round_trip_rounded {platform : Platform} (k : scalar_division)
  (min_val max_val scale v : f32) (zero_point : Z) (MN MX V : Q) :
  val min_val = Fin MN -> val max_val = Fin MX -> val v = Fin V ->
  MN <= 0 <= MX -> MN <= V <= MX ->
  f32_affine_params k min_val max_val = (scale, zero_point) ->
  let q := f32_quantize_value scale zero_point v in
  rounded_at fsub ssub max_val min_val ->
  rdiv_rounded_at k (of_Z 255) (fsub max_val min_val) ->
  rounded_at fmul smul (SFopp min_val) scale ->
  rounded_at fmul smul v scale ->
  rounded_at fadd sadd (fmul v scale) (of_Z zero_point) ->
  rounded_at fdiv sdiv (fsub (of_Z q) (of_Z zero_point)) scale ->
  within_steps ((1 # 2) + (1 # 4096)) (val scale)
    (val (f32_dequantize_value scale zero_point q)) V.
Proof.
  intros Hmn Hmx HV H0 Hv Hp q Er Es Ez Em Ea Ed.
  pose proof (f32_zero_point_range _ _ _ _ _ Hp) as Hzp.
  pose proof (f32_quantize_value_range scale zero_point v) as Hqr. fold q in Hqr.
  pose proof (f_equal fst Hp) as Hscale. pose proof (f_equal snd Hp) as Hzero.
  unfold f32_affine_params in Hscale, Hzero. cbn [fst snd] in Hscale, Hzero.
  (* the range *)
  apply rounded_at_inv in Er. destruct Er as (R & e & HR & He & BR).
  rewrite Hmx, Hmn in He. injection He as <-.
  assert (HRnn : 0 <= R).
  { apply Qabs_rel_lower in BR; [|lra].
    assert (0 <= (1 - u32) * (MX + - MN))
      by (apply Qmult_le_0_compat; [discriminate | lra]).
    lra. }
  (* the scale *)
  destruct (rdiv_rounded_scale k _ R HR HRnn Es)
    as (s & Hs & HRpos & Hspos & _ & HsR).
  rewrite Hscale in Hs.
  assert (Hs' : scalar_eq (val scale) (Fin s)) by (rewrite Hs; reflexivity).
  (* the zero point *)
  apply rounded_at_inv in Ez. destruct Ez as (P & e & HP & He & BP).
  assert (Hneg : scalar_eq (val (SFopp min_val)) (Fin (- MN)))
    by (rewrite val_SFopp, Hmn; reflexivity).
  pose proof (smul_Fin_inv _ _ _ _ _ Hneg Hs' He) as Ee. rewrite Ee in BP.
  assert (Ezp : zero_point = clamp_byte (round_half_even P)).
  { rewrite <- Hzero, Hscale, HP. apply to_uint8_clamp_round. }
  (* the product and the sum *)
  apply rounded_at_inv in Em. destruct Em as (p & e1 & Hp1 & He1 & Bp).
  assert (HV' : scalar_eq (val v) (Fin V)) by (rewrite HV; reflexivity).
  pose proof (smul_Fin_inv _ _ _ _ _ HV' Hs' He1) as Ee1. rewrite Ee1 in Bp.
  apply rounded_at_inv in Ea. destruct Ea as (x & e2 & Hx & He2 & Bx).
  assert (Hp1' : scalar_eq (val (fmul v scale)) (Fin p))
    by (rewrite Hp1; reflexivity).
  pose proof (sadd_Fin_inv _ _ _ _ _ Hp1' (of_Z_byte _ Hzp) He2) as Ee2.
  rewrite Ee2 in Bx.
  assert (Eq : q = clamp_byte (round_half_even x)).
  { unfold q, f32_quantize_value. rewrite Hx. apply to_uint8_clamp_round. }
  (* the quotient *)
  apply rounded_at_inv in Ed. destruct Ed as (d & e3 & Hd & He3 & Bd).
  destruct (sdiv_Fin_inv _ _ _ _ _ (fsub_bytes_val _ _ Hqr Hzp) Hs' He3)
    as [_ Ee3].
  rewrite Ee3 in Bd.
  unfold within_steps, f32_dequantize_value. rewrite Hd, Hs.
  unfold ssub, sneg, sadd. rewrite sdiv_Fin_pos by exact Hspos.
  unfold sabs, sleb. apply Qle_bool_iff.
  rewrite Ezp in Bx, Bd. rewrite Eq in Bd.
  exact (round_trip_rounded_arith MN MX V R s P p x d H0 Hv HRpos Hspos
           BR HsR BP Bp Bx Bd).
Qed.

(** C4.  A tensor of finite floats, quantized with the scale and the zero
    point derived from its own range and dequantized the way [forward] does
    it.  An element for which none of the float operations involved rounds
    has a dequantized value within [0.5 / scale] of it; an element for
    which each of these operations is correctly rounded has one within
    [(0.5 + 2 ^ -12) / scale] of it. *)
Theorem f32_round_trip_bound {platform : Platform} (k : scalar_division)
  (t : list f32) (qt : qtensor) (scale : f32) (zero_point : Z) :
  map val t = map Fin (map number t) ->
  f32_quantize_tensor k t = Ok (qt, scale, zero_point) ->
  forall i v q,
    nth_error t i = Some v -> nth_error qt i = Some q ->
    (rounding_free k t v ->
     within_half_step (val scale)
       (val (f32_dequantize_value scale zero_point q)) (number v)) /\
    (correctly_rounded k t v ->
     within_steps ((1 # 2) + (1 # 4096)) (val scale)
       (val (f32_dequantize_value scale zero_point q)) (number v)).
Proof.
  intros Hfin Hq i v q Hv Hi.
  apply f32_quantize_tensor_inv in Hq.
  destruct Hq as (mn & mx & Hc & Hp & ->).
  rewrite nth_error_map, Hv in Hi. injection Hi as <-.
  destruct (f32_calibrate_values _ _ _ _ Hfin Hc) as (MN & MX & HC & Hmn & Hmx).
  destruct (calibrate_inv _ _ _ HC) as (_ & _ & _ & _ & _ & _ & H0 & Hrange).
  assert (HV : val v = Fin (number v)).
  { apply nth_error_In in Hv.
    apply (in_map val) in Hv. rewrite Hfin in Hv.
    apply in_map_iff in Hv. destruct Hv as (V & HV & _).
    unfold number. now rewrite <- HV. }
  assert (Hin : MN <= number v <= MX).
  { apply Hrange. apply in_map. eapply nth_error_In. exact Hv. }
  split; intros H.
  - unfold rounding_free in H. rewrite Hc, Hp in H.
    destruct H as (Er & Es & Ez & Em & Ea & Ed).
    now apply (f32_round_trip_exact k mn mx _ _ _ MN MX).
  - unfold correctly_rounded in H. rewrite Hc, Hp in H.
    destruct H as (Er & Es & Ez & Em & Ea & Ed).
    now apply (f32_round_trip_rounded k mn mx _ _ _ MN MX).
Qed.

Lemma f32_round_trip_bound_witness :
  (map val [SFopp (of_Z 2); of_Z 0; of_Z 3] =
     map Fin (map number [SFopp (of_Z 2); of_Z 0; of_Z 3]) /\
   f32_quantize_tensor (platform := cpu) ReciprocalTimes
     [SFopp (of_Z 2); of_Z 0; of_Z 3] = Ok ([0; 102; 255]%Z, of_Z 51, 102%Z) /\
   rounding_free (platform := cpu) ReciprocalTimes
     [SFopp (of_Z 2); of_Z 0; of_Z 3] (SFopp (of_Z 2)) /\
   within_half_step (val (of_Z 51))
     (val (f32_dequantize_value (of_Z 51) 102 0)) (number (SFopp (of_Z 2)))) /\
  (map val f32_weights = map Fin (map number f32_weights) /\
   f32_quantize_tensor (platform := cpu) ReciprocalTimes f32_weights =
     Ok ([94; 0; 255]%Z, nearest 8795621 (-15), 67%Z) /\
   correctly_rounded (platform := cpu) ReciprocalTimes f32_weights
     (nearest 13421773 (-27)) /\
   within_steps ((1 # 2) + (1 # 4096)) (val (nearest 8795621 (-15)))
     (val (f32_dequantize_value (nearest 8795621 (-15)) 67 94))
     (number (nearest 13421773 (-27)))).
Proof.
  assert (Hfin : map val [SFopp (of_Z 2); of_Z 0; of_Z 3] =
                 map Fin (map number [SFopp (of_Z 2); of_Z 0; of_Z 3]))
    by reflexivity.
  assert (Hq : f32_quantize_tensor (platform := cpu) ReciprocalTimes
                 [SFopp (of_Z 2); of_Z 0; of_Z 3] =
               Ok ([0; 102; 255]%Z, of_Z 51, 102%Z))
    by (vm_compute; reflexivity).
  assert (Hfree : rounding_free (platform := cpu) ReciprocalTimes
                    [SFopp (of_Z 2); of_Z 0; of_Z 3] (SFopp (of_Z 2)))
    by (vm_compute; repeat split).
  assert (Hfin' : map val f32_weights = map Fin (map number f32_weights))
    by reflexivity.
  assert (Hq' : f32_quantize_tensor (platform := cpu) ReciprocalTimes
                  f32_weights =
                Ok ([94; 0; 255]%Z, nearest 8795621 (-15), 67%Z))
    by (vm_compute; reflexivity).
  assert (Hround : correctly_rounded (platform := cpu) ReciprocalTimes
                     f32_weights (nearest 13421773 (-27)))
    by (vm_compute; repeat split; discriminate).
  split.
  - split; [exact Hfin|]. split; [exact Hq|]. split; [exact Hfree|].
    exact (proj1 (f32_round_trip_bound (platform := cpu) ReciprocalTimes
                    _ _ _ _ Hfin Hq 0%nat _ _ eq_refl eq_refl) Hfree).
  - split; [exact Hfin'|]. split; [exact Hq'|]. split; [exact Hround|].
    exact (proj2 (f32_round_trip_bound (platform := cpu) ReciprocalTimes
                    _ _ _ _ Hfin' Hq' 0%nat _ _ eq_refl eq_refl) Hround).
Defined.

(** C4, as it is stated, fails: the bound is attained in exact arithmetic,
    and the rounding of a float operation goes beyond it.  The tensor
    [-1.0, 1.0] has the scale [127.5] and the zero point [128]; [-1.0] gets
    the code [0], and [(0 - 128) / 127.5] rounds to the float
    [-8421505 / 8388608], at distance [32897 / 8388608] of [-1.0], which is
    more than [0.5 / 127.5]. *)
Lemma f32_round_trip_bound_exceeded :
  Forall
    (fun k =>
       f32_quantize_tensor (platform := cpu) k [SFopp (of_Z 1); of_Z 1] =
         Ok ([0; 255]%Z, nearest 255 (-1), 128%Z) /\
       scalar_eq (val (f32_dequantize_value (nearest 255 (-1)) 128 0))
         (Fin (- (8421505 # 8388608))) /\
       ~ within_half_step (val (nearest 255 (-1)))
           (val (f32_dequantize_value (nearest 255 (-1)) 128 0))
           (number (SFopp (of_Z 1))))
    [ReciprocalTimes; TrueDivision].
Proof.
  repeat constructor; try (vm_compute; reflexivity);
    unfold within_half_step; vm_compute; discriminate.
Qed.

(** ** Zero, in binary32 *)

(** C7.  With a derived scale that is finite and not zero, a zero of either
    sign quantizes to the zero point, so does every element of the tensor
    that is a zero, and the zero point dequantizes to a zero. *)
Theorem f32_zero_round_trip {platform : Platform} (k : scalar_division)
  (t : list f32) (qt : qtensor) (scale : f32) (zero_point : Z) :
  f32_quantize_tensor k t = Ok (qt, scale, zero_point) ->
  finite_nonzero scale = true ->
  (forall z, is_zero z = true -> f32_quantize_value scale zero_point z = zero_point) /\
  (forall i z,
     nth_error t i = Some z -> is_zero z = true ->
     nth_error qt i = Some zero_point) /\
  is_zero (f32_dequantize_value scale zero_point zero_point) = true.
Proof.
  intros Hq Hs. apply f32_quantize_tensor_inv in Hq.
  destruct Hq as (mn & mx & _ & Hp & ->).
  pose proof (f32_zero_point_range _ _ _ _ _ Hp) as Hzp.
  destruct scale as [| | |ss m e]; try discriminate Hs.
  assert (Hquant : forall z, is_zero z = true ->
            f32_quantize_value (S754_finite ss m e) zero_point z = zero_point).
  { intros [sz| | |] Hz; try discriminate Hz.
    unfold f32_quantize_value.
    change (fmul (S754_zero sz) (S754_finite ss m e))
      with (S754_zero (xorb sz ss)).
    rewrite (fadd_zero_byte _ _ Hzp).
    rewrite to_uint8_clamp_round, round_half_even_Z.
    now apply clamp_byte_id. }
  split; [exact Hquant|].
  split.
  - intros i z Hi Hz. rewrite nth_error_map, Hi. simpl.
    now rewrite (Hquant z Hz).
  - unfold f32_dequantize_value.
    pose proof (fsub_byte_self _ Hzp) as H0.
    destruct (fsub (of_Z zero_point) (of_Z zero_point)); try discriminate H0.
    reflexivity.
Qed.

Lemma f32_zero_round_trip_witness :
  f32_quantize_tensor (platform := cpu) ReciprocalTimes
    [SFopp (of_Z 2); of_Z 0; of_Z 3] = Ok ([0; 102; 255]%Z, of_Z 51, 102%Z) /\
  finite_nonzero (of_Z 51) = true /\
  f32_quantize_value (platform := cpu) (of_Z 51) 102 (of_Z 0) = 102%Z /\
  is_zero (f32_dequantize_value (of_Z 51) 102 102) = true.
Proof.
  assert (H : f32_quantize_tensor (platform := cpu) ReciprocalTimes
                [SFopp (of_Z 2); of_Z 0; of_Z 3] =
              Ok ([0; 102; 255]%Z, of_Z 51, 102%Z))
    by (vm_compute; reflexivity).
  assert (Hs : finite_nonzero (of_Z 51) = true) by reflexivity.
  split; [exact H|]. split; [exact Hs|].
  destruct (f32_zero_round_trip (platform := cpu) _ _ _ _ _ H Hs)
    as (Hq & _ & Hd).
  split; [apply Hq; reflexivity | exact Hd].
Defined.

(** C7, as it is stated, fails where the float arithmetic leaves the range
    of the finite floats.  For the tensor [-1e-37, 0.0] the quotient
    [255 / 1e-37] overflows: the scale is [+inf], the zero point [255], and
    [0.0 * inf] is NaN, whose cast is the byte of the platform, [0] on the
    CPU.  For [3e38, -3e38, 0.0] the range overflows: the scale is [0.0],
    and the zero point dequantizes to [0.0 / 0.0], NaN. *)
Lemma f32_zero_round_trip_fails :
  Forall
    (fun k =>
       (f32_quantize_tensor (platform := cpu) k [SFopp f32_1e_37; of_Z 0] =
          Ok ([0; 0]%Z, S754_infinity false, 255%Z) /\
        f32_quantize_value (platform := cpu) (S754_infinity false) 255 (of_Z 0)
          <> 255%Z) /\
       (f32_quantize_tensor (platform := cpu) k
          [f32_3e38; SFopp f32_3e38; of_Z 0] =
          Ok ([0; 0; 0]%Z, S754_zero false, 0%Z) /\
        f32_dequantize_value (S754_zero false) 0 0 = S754_nan))
    [ReciprocalTimes; TrueDivision].
Proof.
  repeat constructor; try (vm_compute; reflexivity); vm_compute; discriminate.
Qed.

(** ** The loop over the children *)

Lemma setattr_nth_other (children : children_t) (name : string)
  (value : module) (i : nat) (n : string) (m : module) :
  nth_error children i = Some (n, m) -> n <> name ->
  nth_error (setattr children name value) i = Some (n, m).
Proof.
  revert i. induction children as [|[n' m'] rest IH]; intros i Hi Hn.
  - now destruct i.
  - simpl. destruct (String.eqb n' name) eqn:E.
    + apply String.eqb_eq in E. subst n'.
      destruct i as [|i]; simpl in *; [congruence | exact Hi].
    + destruct i as [|i]; simpl in *; [exact Hi | now apply IH].
Qed.

Lemma setattr_set_nth (children : children_t) (name : string)
  (value : module) (i : nat) (n : string) (m m' : module) :
  nth_error children i = Some (n, m) -> n <> name ->
  setattr (set_nth i (n, m') children) name value =
  set_nth i (n, m') (setattr children name value).
Proof.
  revert i. induction children as [|[n' c'] rest IH]; intros i Hi Hn.
  - now destruct i.
  - destruct i as [|i]; simpl in Hi.
    + injection Hi as -> ->. simpl.
      apply String.eqb_neq in Hn. now rewrite Hn.
    + simpl. destruct (String.eqb n' name); [reflexivity|].
      simpl. f_equal. now apply IH.
Qed.

Section LoopFacts.

Context {platform : Platform}.
Variable recurse : module -> result (module * module).
Variable E : list string.

Lemma agree_refl (l : children_t) : agree E l l.
Proof. induction l; constructor; auto. Qed.

Lemma agree_set_nth (l : children_t) (i : nat) (n : string) (m m' : module) :
  nth_error l i = Some (n, m) -> excluded n E = true ->
  agree E l (set_nth i (n, m') l).
Proof.
  revert i. induction l as [|x r IH]; intros i Hi Hn;
    [destruct i; discriminate|].
  destruct i as [|i]; simpl in *.
  - injection Hi as ->. constructor; [|apply agree_refl].
    simpl. split; [reflexivity | congruence].
  - constructor; [auto | now apply IH].
Qed.

(** An excluded child is where and what it was when the loop ends. *)
Lemma quantize_children_excluded (todo children children' : children_t)
  (i : nat) (n : string) (m : module) :
  quantize_children recurse E todo children = Ok children' ->
  nth_error children i = Some (n, m) -> excluded n E = true ->
  nth_error children' i = Some (n, m).
Proof.
  revert children.
  induction todo as [|[name layer] rest IH]; intros children Hq Hi Hn;
    simpl in Hq.
  - now injection Hq as <-.
  - destruct (excluded name E) eqn:Hex; [now apply (IH children)|].
    assert (Hne : n <> name) by congruence.
    destruct layer as [l|q|cls sub].
    + destruct (quantize_linear l) as [p|]; [|discriminate]. simpl in Hq.
      apply (IH _ Hq); [now apply setattr_nth_other | exact Hn].
    + destruct (recurse (Quantized q)) as [[r a]|]; [|discriminate].
      simpl in Hq.
      apply (IH _ Hq); [now apply setattr_nth_other | exact Hn].
    + destruct (recurse (nn_Module cls sub)) as [[r a]|]; [|discriminate].
      simpl in Hq.
      apply (IH _ Hq); [now apply setattr_nth_other | exact Hn].
Qed.

(** The loop neither reads nor writes an excluded child: with another module
    in its place the loop does the same, that place apart. *)
Lemma quantize_children_put (todo todo' children : children_t)
  (i : nat) (n : string) (m m' : module) :
  agree E todo todo' ->
  nth_error children i = Some (n, m) -> excluded n E = true ->
  quantize_children recurse E todo' (set_nth i (n, m') children) =
  result_map (set_nth i (n, m')) (quantize_children recurse E todo children).
Proof.
  intros Hag. revert children.
  induction Hag as [|[name layer] [name' layer'] rest rest' [Hname Hlayer] _ IH];
    intros children Hi Hn; [reflexivity|].
  simpl in Hname, Hlayer. subst name'. simpl.
  destruct (excluded name E) eqn:Hex; [now apply IH|].
  rewrite <- (Hlayer eq_refl).
  assert (Hne : n <> name) by congruence.
  destruct layer as [l|q|cls sub].
  - destruct (quantize_linear l) as [p|]; [|reflexivity]. simpl.
    rewrite (setattr_set_nth _ _ _ _ _ m) by assumption.
    apply IH; [now apply setattr_nth_other | exact Hn].
  - destruct (recurse (Quantized q)) as [[r a]|]; [|reflexivity]. simpl.
    rewrite (setattr_set_nth _ _ _ _ _ m) by assumption.
    apply IH; [now apply setattr_nth_other | exact Hn].
  - destruct (recurse (nn_Module cls sub)) as [[r a]|]; [|reflexivity]. simpl.
    rewrite (setattr_set_nth _ _ _ _ _ m) by assumption.
    apply IH; [now apply setattr_nth_other | exact Hn].
Qed.

End LoopFacts.

(** C8.  A direct child whose name is in the exclusion set is, in the module
    returned and in the argument as the call leaves it, the child it was, at
    the place it was.  The call does not look into it: with any other module
    in its place the call raises the same exception or returns the same
    modules, that place apart. *)
Theorem excluded_child_untouched {platform : Platform} (cls : string)
  (children : children_t) (E : list string) (copy_model : bool)
  (i : nat) (name : string) (child : module) :
  nth_error children i = Some (name, child) ->
  excluded name E = true ->
  (forall r a,
     quantize_model (nn_Module cls children) E copy_model = Ok (r, a) ->
     nth_error (named_children r) i = Some (name, child) /\
     nth_error (named_children a) i = Some (name, child)) /\
  (forall child',
     quantize_model (nn_Module cls (set_nth i (name, child') children)) E copy_model =
     result_map
       (fun ra => (put_child i (name, child') (fst ra),
                   put_child i (name, child') (snd ra)))
       (quantize_model (nn_Module cls children) E copy_model)).
Proof.
  intros Hi Hn. split.
  - intros r a. simpl.
    destruct (quantize_children _ E children children) as [c|] eqn:Hq;
      [|discriminate].
    simpl. intros [= <- <-].
    pose proof (quantize_children_excluded _ _ _ _ _ _ _ _ Hq Hi Hn) as Hc.
    split; [exact Hc|]. now destruct copy_model.
  - intros child'. simpl.
    rewrite (quantize_children_put _ _ children _ children i name child child');
      [| now apply agree_set_nth with (m := child) | exact Hi | exact Hn].
    destruct (quantize_children _ E children children) as [c|]; [|reflexivity].
    simpl. now destruct copy_model.
Qed.

Lemma excluded_child_untouched_witness :
  let children := named_children guarded_model in
  let child := nn_Module "Sequential" [("0", Linear layer_no_bias)]%string in
  nth_error children 1 = Some ("1"%string, child) /\
  excluded "1" ["1"%string] = true /\
  (forall r a,
     quantize_model (platform := cpu) (nn_Module "Sequential" children)
       ["1"%string] true = Ok (r, a) ->
     nth_error (named_children r) 1 = Some ("1"%string, child) /\
     nth_error (named_children a) 1 = Some ("1"%string, child)) /\
  (forall child',
     quantize_model (platform := cpu)
       (nn_Module "Sequential" (set_nth 1 ("1"%string, child') children))
       ["1"%string] true =
     result_map
       (fun ra => (put_child 1 ("1"%string, child') (fst ra),
                   put_child 1 ("1"%string, child') (snd ra)))
       (quantize_model (platform := cpu) (nn_Module "Sequential" children)
          ["1"%string] true)).
Proof.
  intros children child.
  split; [reflexivity|]. split; [reflexivity|].
  apply (excluded_child_untouched (platform := cpu)); reflexivity.
Defined.

(** ** What the call returns, child by child *)

Lemma setattr_nth_same (children : children_t) (i : nat) (n : string)
  (m : module) :
  nth_error children i = Some (n, m) ->
  nth_error (setattr children n m) i = Some (n, m).
Proof.
  revert i. induction children as [|[n' m'] rest IH]; intros i Hi.
  - now destruct i.
  - simpl. destruct (String.eqb n' n) eqn:E.
    + destruct i as [|i]; simpl in *; [|exact Hi].
      now injection Hi as -> ->.
    + destruct i as [|i]; simpl in *; [exact Hi | now apply IH].
Qed.

Lemma setattr_nth_inv (children : children_t) (name : string) (value : module)
  (j : nat) (n : string) (m : module) :
  nth_error (setattr children name value) j = Some (n, m) -> n <> name ->
  nth_error children j = Some (n, m).
Proof.
  revert j. induction children as [|[n' m'] rest IH]; intros j Hj Hn.
  - destruct j as [|j]; simpl in Hj; [|now destruct j].
    injection Hj as <- _. now contradiction Hn.
  - simpl in Hj. destruct (String.eqb n' name) eqn:E.
    + apply String.eqb_eq in E.
      destruct j as [|j]; simpl in *; [congruence | exact Hj].
    + destruct j as [|j]; simpl in *; [exact Hj | now apply IH].
Qed.

(** The first child registered under [name] is the one [setattr] writes. *)
Lemma setattr_nth_first (children : children_t) (name : string)
  (value : module) (i : nat) (m : module) :
  nth_error children i = Some (name, m) ->
  (forall j m', (j < i)%nat -> nth_error children j <> Some (name, m')) ->
  nth_error (setattr children name value) i = Some (name, value).
Proof.
  revert i. induction children as [|[n' m'] rest IH]; intros i Hi Hfirst.
  - now destruct i.
  - simpl. destruct (String.eqb n' name) eqn:E.
    + apply String.eqb_eq in E. subst n'.
      destruct i as [|i]; [reflexivity|].
      exfalso. apply (Hfirst O m'); [lia | reflexivity].
    + destruct i as [|i]; simpl in *.
      * injection Hi as -> ->. now rewrite String.eqb_refl in E.
      * apply IH; [exact Hi|]. intros j m'' Hj.
        apply (Hfirst (S j) m''). lia.
Qed.

(** Children registered under distinct names: a name has one entry. *)
Lemma NoDup_names_nth (l : children_t) (i j : nat) (n : string) (m m' : module) :
  NoDup (map fst l) ->
  nth_error l i = Some (n, m) -> nth_error l j = Some (n, m') -> i = j.
Proof.
  intros Hnd Hi Hj.
  apply (proj1 (NoDup_nth_error (map fst l)) Hnd).
  - apply nth_error_Some. rewrite nth_error_map, Hi. discriminate.
  - now rewrite !nth_error_map, Hi, Hj.
Qed.

Section ShallowFacts.

Context {platform : Platform}.
Variable recurse : module -> result (module * module).
Variable E : list string.

(** The recursive call leaves its argument as it was. *)
Hypothesis recurse_copies :
  forall m r a, recurse m = Ok (r, a) -> a = m.

Lemma pending_setattr (name : string) (layer value : module)
  (rest children : children_t) :
  NoDup (map fst ((name, layer) :: rest)) ->
  pending ((name, layer) :: rest) children ->
  pending rest (setattr children name value).
Proof.
  intros Hnd Hp n m Hin j m' Hj.
  assert (Hne : n <> name).
  { intros ->. inversion Hnd as [|? ? Hnotin _]. apply Hnotin.
    apply in_map_iff. now exists (name, m). }
  apply (Hp n m (or_intror Hin) j).
  now apply setattr_nth_inv in Hj.
Qed.

Lemma pending_tail (c : string * module) (rest children : children_t) :
  pending (c :: rest) children -> pending rest children.
Proof. intros Hp n m Hin. apply Hp. now right. Qed.

(** A child that is not an [nn.Linear] is what it was when the loop ends. *)
Lemma quantize_children_keeps (todo children children' : children_t)
  (i : nat) (n : string) (m : module) :
  NoDup (map fst todo) -> pending todo children ->
  quantize_children recurse E todo children = Ok children' ->
  nth_error children i = Some (n, m) -> (forall l, m <> Linear l) ->
  nth_error children' i = Some (n, m).
Proof.
  intros Hnd Hp Hq Hi Hm. revert children Hp Hq Hi.
  induction todo as [|[name layer] rest IH]; intros children Hp Hq Hi;
    simpl in Hq.
  - now injection Hq as <-.
  - assert (Hnd' : NoDup (map fst rest)) by now inversion Hnd.
    destruct (excluded name E);
      [apply (IH Hnd' children); eauto using pending_tail|].
    assert (Hstep : forall value,
               (n = name -> value = m) ->
               nth_error (setattr children name value) i = Some (n, m)).
    { intros value Hv. destruct (String.eqb n name) eqn:Heq.
      - apply String.eqb_eq in Heq. subst name. rewrite (Hv eq_refl).
        now apply setattr_nth_same.
      - apply String.eqb_neq in Heq. now apply setattr_nth_other. }
    assert (Hlayer : n = name -> m = layer)
      by (intros ->; apply (Hp name layer (or_introl eq_refl) i); exact Hi).
    destruct layer as [l|q|cls sub].
    + destruct (quantize_linear l) as [p|]; [|discriminate]. simpl in Hq.
      apply (IH Hnd' _ (pending_setattr _ _ _ _ _ Hnd Hp) Hq).
      apply Hstep. intros Heq. exfalso. apply (Hm l). auto.
    + destruct (recurse (Quantized q)) as [[r a]|] eqn:Hr; [|discriminate].
      simpl in Hq. apply recurse_copies in Hr. subst a.
      apply (IH Hnd' _ (pending_setattr _ _ _ _ _ Hnd Hp) Hq).
      apply Hstep. intros Heq. symmetry. auto.
    + destruct (recurse (nn_Module cls sub)) as [[r a]|] eqn:Hr; [|discriminate].
      simpl in Hq. apply recurse_copies in Hr. subst a.
      apply (IH Hnd' _ (pending_setattr _ _ _ _ _ Hnd Hp) Hq).
      apply Hstep. intros Heq. symmetry. auto.
Qed.

End ShallowFacts.

Section ShallowLinear.

Context {platform : Platform}.
Variable recurse : module -> result (module * module).
Variable E : list string.

(** A child whose name the loop does not come to is what it was when the
    loop ends. *)
Lemma quantize_children_untouched (todo children children' : children_t)
  (i : nat) (n : string) (m : module) :
  ~ In n (map fst todo) ->
  quantize_children recurse E todo children = Ok children' ->
  nth_error children i = Some (n, m) ->
  nth_error children' i = Some (n, m).
Proof.
  revert children.
  induction todo as [|[name layer] rest IH]; intros children Hn Hq Hi;
    simpl in Hq.
  - now injection Hq as <-.
  - simpl in Hn.
    assert (Hne : n <> name) by (intros ->; apply Hn; now left).
    assert (Hrest : ~ In n (map fst rest)) by (intros H; apply Hn; now right).
    destruct (excluded name E); [now apply (IH children)|].
    destruct layer as [l|q|cls sub].
    + destruct (quantize_linear l) as [p|]; [|discriminate]. simpl in Hq.
      apply (IH _ Hrest Hq). now apply setattr_nth_other.
    + destruct (recurse (Quantized q)) as [[r a]|]; [|discriminate].
      simpl in Hq. apply (IH _ Hrest Hq). now apply setattr_nth_other.
    + destruct (recurse (nn_Module cls sub)) as [[r a]|]; [|discriminate].
      simpl in Hq. apply (IH _ Hrest Hq). now apply setattr_nth_other.
Qed.

(** An [nn.Linear] child that is not excluded and that the loop comes to is
    replaced by its quantized version. *)
Lemma quantize_children_quantizes (todo children children' : children_t)
  (i : nat) (n : string) (l : LinearLayer) :
  NoDup (map fst todo) -> pending todo children ->
  (forall j m', (j < i)%nat -> nth_error children j <> Some (n, m')) ->
  quantize_children recurse E todo children = Ok children' ->
  nth_error children i = Some (n, Linear l) ->
  In n (map fst todo) -> excluded n E = false ->
  exists p,
    quantize_linear l = Ok p /\
    nth_error children' i = Some (n, Quantized (make_quantized l p)).
Proof.
  intros Hnd Hp Hfirst Hq Hi Hin Hex. revert children Hp Hfirst Hq Hi.
  induction todo as [|[name layer] rest IH]; intros children Hp Hfirst Hq Hi;
    [contradiction|].
  assert (Hnd' : NoDup (map fst rest)) by now inversion Hnd.
  assert (Hnotin : ~ In name (map fst rest)) by now inversion Hnd.
  simpl in Hq. destruct (String.eqb n name) eqn:Heq.
  - apply String.eqb_eq in Heq. subst name.
    rewrite Hex in Hq.
    rewrite <- (Hp n layer (or_introl eq_refl) i _ Hi) in Hq.
    destruct (quantize_linear l) as [p|]; [|discriminate]. simpl in Hq.
    exists p. split; [reflexivity|].
    apply (quantize_children_untouched rest _ _ _ _ _ Hnotin Hq).
    now apply setattr_nth_first with (m := Linear l).
  - apply String.eqb_neq in Heq.
    assert (Hin' : In n (map fst rest))
      by (destruct Hin as [Hin|Hin]; [simpl in Hin; congruence | exact Hin]).
    assert (Hfirst' : forall value j m', (j < i)%nat ->
               nth_error (setattr children name value) j <> Some (n, m')).
    { intros value j m' Hj Hnth. apply (Hfirst j m' Hj).
      now apply setattr_nth_inv in Hnth. }
    destruct (excluded name E);
      [apply (IH Hnd' Hin' children); eauto using pending_tail|].
    destruct layer as [l'|q|cls sub].
    + destruct (quantize_linear l') as [p|]; [|discriminate]. simpl in Hq.
      apply (IH Hnd' Hin' _ (pending_setattr _ _ _ _ _ Hnd Hp) (Hfirst' _) Hq).
      now apply setattr_nth_other.
    + destruct (recurse (Quantized q)) as [[r a]|]; [|discriminate].
      simpl in Hq.
      apply (IH Hnd' Hin' _ (pending_setattr _ _ _ _ _ Hnd Hp) (Hfirst' _) Hq).
      now apply setattr_nth_other.
    + destruct (recurse (nn_Module cls sub)) as [[r a]|]; [|discriminate].
      simpl in Hq.
      apply (IH Hnd' Hin' _ (pending_setattr _ _ _ _ _ Hnd Hp) (Hfirst' _) Hq).
      now apply setattr_nth_other.
Qed.

End ShallowLinear.

Section Shallow.

Context {platform : Platform}.
Variable E : list string.

(** With [copy_model] the argument is left as it was. *)
Lemma quantize_model_copy (model r a : module) :
  quantize_model model E true = Ok (r, a) -> a = model.
Proof.
  destruct model as [l|q|cls children]; simpl.
  - now intros [= _ <-].
  - now intros [= _ <-].
  - destruct (quantize_children _ E children children); [|discriminate].
    simpl. now intros [= _ <-].
Qed.

Lemma pending_refl (children : children_t) :
  NoDup (map fst children) -> pending children children.
Proof.
  intros Hnd n m Hin j m' Hj.
  apply In_nth_error in Hin. destruct Hin as [k Hk].
  assert (k = j) by (eapply NoDup_names_nth; eauto). subst k.
  congruence.
Qed.

(** The module returned, child by child, for children registered under
    distinct names (as those of a module are): a child that is excluded or
    that is not an [nn.Linear] is returned as it was -- a container with all
    that is in it -- and an [nn.Linear] that is not excluded is returned
    quantized. *)
Lemma quantize_model_shallow (cls : string) (children : children_t)
  (copy_model : bool) (r a : module) :
  NoDup (map fst children) ->
  quantize_model (nn_Module cls children) E copy_model = Ok (r, a) ->
  forall i name child,
    nth_error children i = Some (name, child) ->
    match child with
    | Linear l =>
        if excluded name E
        then nth_error (named_children r) i = Some (name, child)
        else exists p,
               quantize_linear l = Ok p /\
               nth_error (named_children r) i =
                 Some (name, Quantized (make_quantized l p))
    | _ => nth_error (named_children r) i = Some (name, child)
    end.
Proof.
  intros Hnd Hq i name child Hi. simpl in Hq.
  destruct (quantize_children _ E children children) as [c|] eqn:Hc;
    [|discriminate].
  simpl in Hq. injection Hq as <- _. simpl.
  assert (Hkeep : (forall l, child <> Linear l) ->
                  nth_error c i = Some (name, child)).
  { intros Hm.
    apply (quantize_children_keeps
             (fun layer => quantize_model layer E true) E
             (fun m r' a' => quantize_model_copy m r' a')
             children children c i name child Hnd
             (pending_refl children Hnd) Hc Hi Hm). }
  destruct child as [l|q|cls' sub]; try (apply Hkeep; discriminate).
  destruct (excluded name E) eqn:Hex.
  - apply (quantize_children_excluded _ E children children c i name _ Hc Hi Hex).
  - apply (quantize_children_quantizes
             (fun layer => quantize_model layer E true) E
             children children c i name l Hnd (pending_refl children Hnd));
      auto.
    + intros j m' Hj Hnth.
      assert (j = i) by (eapply NoDup_names_nth; eauto). lia.
    + apply in_map_iff. exists (name, Linear l). split; [reflexivity|].
      eapply nth_error_In. exact Hi.
Qed.

End Shallow.

(** The two runs on [flat_model]: with ["1"] excluded the layers ["0"] and
    ["2"] come back quantized and the [nn.ReLU] as it was; with ["2"]
    excluded the layer ["2"] is still an [nn.Linear]. *)
Example flat_model_exclude_1 :
  exists q0 q2 a,
    quantize_model (platform := cpu) flat_model ["1"%string] true =
      Ok (nn_Module "Sequential"
            [("0", Quantized q0); ("1", nn_Module "ReLU" []);
             ("2", Quantized q2)]%string, a).
Proof. do 3 eexists. reflexivity. Qed.

Example flat_model_exclude_2 :
  exists q0 a,
    quantize_model (platform := cpu) flat_model ["2"%string] true =
      Ok (nn_Module "Sequential"
            [("0", Quantized q0); ("1", nn_Module "ReLU" []);
             ("2", linear_2_2)]%string, a).
Proof. do 2 eexists. reflexivity. Qed.

(** ** Recursion *)

(** C1.  [nested_model] is a container with a linear layer and a container
    of one linear layer; nothing is excluded.  The call returns the direct
    linear child quantized and the nested container as it was, its linear
    layer still an [nn.Linear], with and without [copy_model]. *)
Theorem nested_linear_not_quantized (platform : Platform) (copy_model : bool) :
  exists q r a,
    quantize_model nested_model [] copy_model = Ok (r, a) /\
    r = nn_Module "Sequential"
          [("0", Quantized q);
           ("1", nn_Module "Sequential" [("0", linear_2_2)])]%string.
Proof.
  destruct copy_model; do 3 eexists; split; reflexivity.
Qed.

(** ** Entries of the exclusion list that match nothing *)

Section ExclusionFacts.

Context {platform : Platform}.

(** The loop depends on the exclusion list through the names it tests. *)
Lemma quantize_children_tested (X X' : list string)
  (rec rec' : module -> result (module * module)) (cls : string)
  (todo : children_t) :
  Forall
    (fun c =>
       (forall n, In n (names_tested (snd c) X) ->
                  excluded n X = excluded n X') ->
       rec (snd c) = rec' (snd c)) todo ->
  (forall n, In n (names_tested (nn_Module cls todo) X) ->
             excluded n X = excluded n X') ->
  forall children,
    quantize_children rec X todo children =
    quantize_children rec' X' todo children.
Proof.
  induction 1 as [|[name layer] rest Hrec _ IH]; intros Hn children;
    [reflexivity|].
  simpl in Hrec, Hn. simpl.
  rewrite <- (Hn name (or_introl eq_refl)).
  assert (Hrest : forall n, In n (names_tested (nn_Module cls rest) X) ->
                            excluded n X = excluded n X').
  { intros n Hin. apply Hn. right. apply in_or_app. now right. }
  destruct (excluded name X) eqn:Hex; [now apply IH|].
  destruct layer as [l|q|cls' sub].
  - destruct (quantize_linear l); simpl; [now apply IH | reflexivity].
  - rewrite <- Hrec by (intros n Hin; apply Hn; right; apply in_or_app; now left).
    destruct (rec (Quantized q)) as [[r a]|]; simpl; [now apply IH | reflexivity].
  - rewrite <- Hrec by (intros n Hin; apply Hn; right; apply in_or_app; now left).
    destruct (rec (nn_Module cls' sub)) as [[r a]|]; simpl;
      [now apply IH | reflexivity].
Qed.

Lemma quantize_model_tested (X X' : list string) (model : module) :
  forall copy_model,
    (forall n, In n (names_tested model X) -> excluded n X = excluded n X') ->
    quantize_model model X copy_model = quantize_model model X' copy_model.
Proof.
  induction model as [l|q|cls children IH] using module_ind;
    intros copy_model Hn; [reflexivity | reflexivity |].
  simpl.
  rewrite (quantize_children_tested X X'
             (fun layer => quantize_model layer X true)
             (fun layer => quantize_model layer X' true) cls children).
  - reflexivity.
  - eapply Forall_impl; [|exact IH]. intros c Hc Hin. now apply Hc.
  - exact Hn.
Qed.

Lemma excluded_filter (n entry : string) (X : list string) :
  n <> entry ->
  excluded n X =
  excluded n (filter (fun x => negb (String.eqb x entry)) X).
Proof.
  intros Hne. induction X as [|x X IH]; [reflexivity|].
  simpl. destruct (String.eqb x entry) eqn:Hx; simpl.
  - apply String.eqb_eq in Hx. subst x.
    apply String.eqb_neq in Hne. now rewrite Hne.
  - now rewrite IH.
Qed.

End ExclusionFacts.

(** C9, as the code has it.  An entry of the exclusion list that matches no
    name the traversal tests is not reported: the call gives the caller what
    the call without the entry gives -- it completes when that one does, with
    the same modules, and is silent about the entry. *)
Theorem unknown_exclusion_ignored {platform : Platform} (model : module)
  (exclude_layers : list string) (copy_model : bool) (entry : string) :
  ~ In entry (names_tested model exclude_layers) ->
  ~ reported model exclude_layers copy_model entry.
Proof.
  intros Hnot Hrep. apply Hrep.
  apply quantize_model_tested.
  intros n Hin. apply excluded_filter. intros ->. contradiction.
Qed.

Lemma unknown_exclusion_ignored_witness :
  ~ In "typo"%string (names_tested flat_model ["1"; "typo"]%string) /\
  ~ reported (platform := cpu) flat_model ["1"; "typo"]%string true
      "typo"%string.
Proof.
  assert (H : ~ In "typo"%string (names_tested flat_model ["1"; "typo"]%string)).
  { simpl. intros [H|[H|[H|[]]]]; discriminate H. }
  split; [exact H|].
  exact (unknown_exclusion_ignored (platform := cpu) flat_model _ true _ H).
Defined.

(** C9, as it is stated, fails: ["typo"] matches no child of [flat_model],
    the call completes, and the caller gets exactly what the call with an
    empty exclusion list gives. *)
Lemma unknown_exclusion_not_reported :
  ~ In "typo"%string (names_tested flat_model ["typo"%string]) /\
  (exists ra,
     quantize_model (platform := cpu) flat_model ["typo"%string] true = Ok ra) /\
  ~ reported (platform := cpu) flat_model ["typo"%string] true "typo"%string.
Proof.
  split; [|split].
  - simpl. intros [H|[H|[H|[]]]]; discriminate H.
  - eexists. reflexivity.
  - intros H. apply H. reflexivity.
Qed.

(** ** Layers without a bias *)

Lemma quantize_children_raises {platform : Platform}
  (rec : module -> result (module * module)) (E : list string)
  (todo : children_t) (name : string) (l : LinearLayer) (e : exception) :
  In (name, Linear l) todo -> excluded name E = false ->
  quantize_linear l = Raise e ->
  forall children, exists e', quantize_children rec E todo children = Raise e'.
Proof.
  intros Hin Hex Hq.
  induction todo as [|[n m] rest IH]; intros children; [contradiction|].
  simpl. destruct Hin as [[= -> ->]|Hin].
  - rewrite Hex, Hq. simpl. eauto.
  - destruct (excluded n E); [now apply IH|].
    destruct m as [l'|q|cls sub].
    + destruct (quantize_linear l'); simpl; [now apply IH | eauto].
    + destruct (rec (Quantized q)) as [[r a]|]; simpl; [now apply IH | eauto].
    + destruct (rec (nn_Module cls sub)) as [[r a]|]; simpl; [now apply IH | eauto].
Qed.

(** C10.  [quantize_linear] on a layer without a bias raises: it reads
    [bias.min()] whatever the bias is (the exception is the [AttributeError]
    of that access when the weight has elements, so that its own [min()]
    has passed).  Nothing is skipped and no layer without a bias is built:
    [quantize_model] on a model with such a layer as a direct child that is
    not excluded raises too. *)
Theorem bias_free_layer_raises {platform : Platform} (l : LinearLayer) :
  bias l = None ->
  (exists e, quantize_linear l = Raise e) /\
  (weight l <> [] -> quantize_linear l = Raise AttributeError) /\
  (forall cls children name E copy_model,
     In (name, Linear l) children -> excluded name E = false ->
     exists e, quantize_model (nn_Module cls children) E copy_model = Raise e).
Proof.
  intros Hb.
  assert (H : exists e, quantize_linear l = Raise e).
  { unfold quantize_linear.
    destruct (quantize_tensor (weight l)) as [[[wq ws] wz]|e]; simpl; [|eauto].
    rewrite Hb. simpl. eauto. }
  split; [exact H|]. split.
  - intros Hw. unfold quantize_linear.
    destruct (quantize_tensor_nonempty _ Hw) as (qt & s & z & ->).
    simpl. now rewrite Hb.
  - intros cls children name E copy_model Hin Hex. destruct H as [e He].
    simpl.
    destruct (quantize_children_raises
                (fun layer => quantize_model layer E true) E children
                name l e Hin Hex He children) as [e' ->].
    simpl. eauto.
Qed.

Lemma bias_free_layer_raises_witness :
  bias layer_no_bias = None /\
  quantize_linear (platform := cpu) layer_no_bias = Raise AttributeError /\
  exists e,
    quantize_model (platform := cpu)
      (nn_Module "Sequential"
         [("0", linear_2_2); ("1", Linear layer_no_bias)]%string)
      [] true = Raise e.
Proof.
  destruct (bias_free_layer_raises (platform := cpu) layer_no_bias eq_refl)
    as (_ & Hattr & Hmodel).
  split; [reflexivity|]. split.
  - apply Hattr. discriminate.
  - apply (Hmodel "Sequential"%string _ "1"%string [] true).
    + right. left. reflexivity.
    + reflexivity.
Defined.

(** * Further properties of the code *)

(** ** The parameters [quantize_linear] derives *)

Section DerivedFacts.

Context {platform : Platform}.

(** What [quantize_tensor] returns, case by case: the range is not a point,
    or it is the point 0. *)
Lemma quantize_tensor_cases (t : tensor) (qt : qtensor) (scale : scalar)
  (zp : Z) :
  quantize_tensor t = Ok (qt, scale, zp) ->
  exists mn mx,
    calibrate t = Ok (mn, mx) /\
    mn <= 0 <= mx /\
    (forall v, In v t -> mn <= v <= mx) /\
    qt = map (quantize_value scale zp) t /\
    ((mn < mx /\
      scale = Fin (255 / (mx - mn)) /\
      zp = clamp_byte (round_half_even (- mn * (255 / (mx - mn))))) \/
     (mn == 0 /\ mx == 0 /\ scale = PInf /\ zp = nan_to_uint8)).
Proof.
  intros Hq. apply quantize_tensor_inv in Hq.
  destruct Hq as (mn & mx & Hc & Hp & Hqt).
  destruct (calibrate_inv _ _ _ Hc) as (_ & _ & _ & _ & _ & _ & H0 & Hin).
  exists mn, mx. repeat (split; [assumption|]).
  destruct (affine_params_cases _ _ H0) as [[Hlt Hp']|(Emin & Emax & Hp')];
    rewrite Hp' in Hp; injection Hp as <- <-; [left | right]; auto.
Qed.

(** The calibrated range has its ends in the tensor or at zero. *)
Lemma calibrate_ends (t : tensor) (mn mx : Q) :
  calibrate t = Ok (mn, mx) ->
  (mn == 0 \/ exists v, In v t /\ v == mn) /\
  (mx == 0 \/ exists v, In v t /\ v == mx).
Proof.
  intros Hc. unfold calibrate in Hc.
  destruct (tensor_min t) as [lo|] eqn:Hlo; [|discriminate].
  destruct (tensor_max t) as [hi|] eqn:Hhi; [|discriminate].
  simpl in Hc. injection Hc as <- <-.
  destruct (tensor_min_spec _ _ Hlo) as [Hinlo _].
  destruct (tensor_max_spec _ _ Hhi) as [Hinhi _].
  split.
  - destruct (Qltb 0 lo); [left; reflexivity | right; exists lo; split; [assumption | reflexivity]].
  - destruct (Qltb hi 0); [left; reflexivity | right; exists hi; split; [assumption | reflexivity]].
Qed.

Lemma scale_positive (mn mx : Q) : mn < mx -> 0 < 255 / (mx - mn).
Proof. intros H. apply Qlt_shift_div_l; lra. Qed.

End DerivedFacts.

(** X1.  [quantize_linear] raises [RuntimeError] on a layer whose weight has
    no element, [AttributeError] on one without a bias and [RuntimeError] on
    one whose bias has no element; on every other layer it returns, with
    quantized tensors as long as the weight and the bias and zero points of
    [0..255]. *)
Theorem quantize_linear_outcome {platform : Platform} (l : LinearLayer) :
  match weight l, bias l with
  | [], _ => quantize_linear l = Raise RuntimeError
  | _ :: _, None => quantize_linear l = Raise AttributeError
  | _ :: _, Some [] => quantize_linear l = Raise RuntimeError
  | _ :: _, Some (b :: bs) =>
      exists p,
        quantize_linear l = Ok p /\
        List.length (weight_quantized p) = List.length (weight l) /\
        List.length (bias_quantized p) = List.length (b :: bs) /\
        (0 <= weight_zero_point p <= 255)%Z /\
        (0 <= bias_zero_point p <= 255)%Z
  end.
Proof.
  destruct l as [i o w b]. simpl.
  destruct w as [|w0 w]; [reflexivity|].
  destruct (quantize_tensor_nonempty (w0 :: w)) as (wq & ws & wz & Hw);
    [discriminate|].
  unfold quantize_linear. cbn [weight bias]. rewrite Hw. cbn [bind].
  destruct b as [[|b0 b]|]; [reflexivity | | reflexivity].
  destruct (quantize_tensor_nonempty (b0 :: b)) as (bq & bs & bz & Hb);
    [discriminate|].
  cbn [bind]. rewrite Hb. cbn [bind].
  eexists. split; [reflexivity|].
  cbn [weight_quantized bias_quantized weight_zero_point bias_zero_point].
  destruct (quantize_tensor_inv _ _ _ _ Hw) as (mn & mx & _ & Hpw & ->).
  destruct (quantize_tensor_inv _ _ _ _ Hb) as (mn' & mx' & _ & Hpb & ->).
  rewrite !length_map.
  assert (Hz : forall a c s z, affine_params a c = (s, z) -> (0 <= z <= 255)%Z).
  { intros a c s z H. unfold affine_params in H. injection H as _ <-.
    match goal with
    | |- (0 <= to_uint8 ?x <= 255)%Z => pose proof (to_uint8_range x)
    end.
    lia. }
  repeat split; try reflexivity; eapply Hz; eassumption.
Qed.

(** ** The derived scale, in binary32 *)



(** ** Rounding is monotone *)

Lemma round_half_even_floor (q : Q) :
  (Qfloor q <= round_half_even q <= Qfloor q + 1)%Z.
Proof.
  unfold round_half_even.
  destruct (Qltb _ _); [lia|].
  destruct (Qltb _ _); [lia|].
  destruct (Z.even _); lia.
Qed.

Lemma round_half_even_mono (p q : Q) :
  p <= q -> (round_half_even p <= round_half_even q)%Z.
Proof.
  intros H. pose proof (Qfloor_resp_le _ _ H) as Hf.
  pose proof (round_half_even_floor p). pose proof (round_half_even_floor q).
  destruct (Z.eq_dec (Qfloor p) (Qfloor q)) as [E|E]; [|lia].
  unfold round_half_even. rewrite E.
  set (f := Qfloor q).
  assert (Hr : p - inject_Z f <= q - inject_Z f) by lra.
  qcases; try lra; try lia; destruct (Z.even f); lia.
Qed.

Lemma round_half_even_small (x : Q) :
  - (1 # 2) <= x <= 1 # 2 -> round_half_even x = 0%Z.
Proof.
  intros Hx. unfold round_half_even.
  pose proof (Qfloor_le x) as Hlo. pose proof (Qlt_floor x) as Hhi.
  rewrite inject_Z_succ in Hhi.
  assert (Hf : (Qfloor x = -1 \/ Qfloor x = 0)%Z).
  { assert (inject_Z (Qfloor x) <= inject_Z 0 + (1 # 2))
      by (change (inject_Z 0) with 0; lra).
    assert (inject_Z (-1) <= inject_Z (Qfloor x) + (1 # 2))
      by (change (inject_Z (-1)) with (-1); lra).
    pose proof (inject_Z_le_half _ _ H). pose proof (inject_Z_le_half _ _ H0).
    lia. }
  destruct Hf as [Hf|Hf]; rewrite Hf in *.
  - change (inject_Z (-1)) with (-1) in *. qcases; try lra; reflexivity.
  - change (inject_Z 0) with 0 in *. qcases; try lra; reflexivity.
Qed.

Lemma clamp_byte_mono (m n : Z) : (m <= n)%Z -> (clamp_byte m <= clamp_byte n)%Z.
Proof. unfold clamp_byte. lia. Qed.

Section ProperFacts.

Context {platform : Platform}.

(** A tensor with an element that is not zero has a range that is not a
    point. *)
Lemma quantize_tensor_proper (t : tensor) (qt : qtensor) (scale : scalar)
  (zp : Z) :
  quantize_tensor t = Ok (qt, scale, zp) ->
  (exists v, In v t /\ ~ v == 0) ->
  exists mn mx,
    calibrate t = Ok (mn, mx) /\ mn <= 0 <= mx /\ mn < mx /\
    (forall v, In v t -> mn <= v <= mx) /\
    scale = Fin (255 / (mx - mn)) /\
    zp = round_half_even (- mn * (255 / (mx - mn))) /\
    0 <= - mn * (255 / (mx - mn)) <= 255.
Proof.
  intros Hq (v & Hv & Hnz).
  destruct (quantize_tensor_cases _ _ _ _ Hq)
    as (mn & mx & Hc & H0 & Hin & _ & [(Hlt & -> & ->)|(Emin & Emax & _)]).
  - exists mn, mx. repeat (split; [assumption|]).
    split; [reflexivity|].
    pose proof (scale_positive _ _ Hlt) as Hpos.
    set (s := 255 / (mx - mn)) in *.
    assert (Hs : s * (mx - mn) == 255) by (unfold s; field; lra).
    assert (Hmn : mn * s <= 0 * s) by (apply Qmult_le_compat_r; lra).
    assert (Hmx : 0 * s <= mx * s) by (apply Qmult_le_compat_r; lra).
    assert (Ha : 0 <= - mn * s <= 255) by lra.
    split; [|exact Ha].
    apply clamp_byte_id. split.
    + apply round_half_even_ge. change (inject_Z 0) with 0. lra.
    + apply round_half_even_le. change (inject_Z 255) with 255. lra.
  - exfalso. apply Hnz. specialize (Hin v Hv). lra.
Qed.

End ProperFacts.

(** X3.  A tensor whose elements are all zero gets the scale [+inf], and is
    dequantized to exactly zero in every element all the same: whatever byte
    the quantized tensor holds, its distance to the zero point is divided by
    the infinite scale. *)
Theorem all_zero_round_trip {platform : Platform} (t : tensor) :
  t <> [] -> (forall v, In v t -> v == 0) ->
  exists qt zp,
    quantize_tensor t = Ok (qt, PInf, zp) /\
    map (dequantize_value PInf zp) qt = map (fun _ => Fin 0) t.
Proof.
  intros Ht Hzero.
  destruct (quantize_tensor_nonempty t Ht) as (qt & scale & zp & Hq).
  destruct (quantize_tensor_cases _ _ _ _ Hq)
    as (mn & mx & Hc & H0 & Hin & Hqt & [(Hlt & _)|(_ & _ & Hs & _)]).
  - exfalso.
    destruct (calibrate_ends _ _ _ Hc) as [[Emn|(v & Hv & Ev)] [Emx|(w & Hw & Ew)]];
      try pose proof (Hzero _ Hv); try pose proof (Hzero _ Hw); lra.
  - subst scale. exists qt, zp. split; [exact Hq|].
    rewrite Hqt, map_map. apply map_ext. intros v. reflexivity.
Qed.

Lemma all_zero_round_trip_witness :
  [0; 0; 0] <> [] /\ (forall v, In v [0; 0; 0] -> v == 0) /\
  exists qt zp,
    quantize_tensor (platform := cpu) [0; 0; 0] = Ok (qt, PInf, zp) /\
    map (dequantize_value PInf zp) qt = map (fun _ => Fin 0) [0; 0; 0].
Proof.
  assert (Ht : [0; 0; 0] <> []) by discriminate.
  assert (Hz : forall v, In v [0; 0; 0] -> v == 0)
    by (intros v [<-|[<-|[<-|[]]]]; reflexivity).
  split; [exact Ht|]. split; [exact Hz|].
  exact (all_zero_round_trip (platform := cpu) _ Ht Hz).
Defined.



(** X5.  Quantization with the parameters derived from a tensor keeps the
    order: a greater value never gets a smaller code. *)
Theorem quantize_value_monotone {platform : Platform} (t : tensor)
  (qt : qtensor) (scale : scalar) (zp : Z) (v w : Q) :
  quantize_tensor t = Ok (qt, scale, zp) ->
  v <= w ->
  (quantize_value scale zp v <= quantize_value scale zp w)%Z.
Proof.
  intros Hq Hvw.
  destruct (quantize_tensor_cases _ _ _ _ Hq)
    as (mn & mx & _ & _ & _ & _ & [(Hlt & -> & _)|(_ & _ & -> & ->)]).
  - pose proof (scale_positive _ _ Hlt) as Hpos.
    rewrite !quantize_value_Fin.
    apply clamp_byte_mono, round_half_even_mono.
    assert (v * (255 / (mx - mn)) <= w * (255 / (mx - mn)))
      by (apply Qmult_le_compat_r; lra).
    lra.
  - pose proof nan_to_uint8_range as Hc.
    unfold quantize_value, clamped_value, smul, inf_of_sign.
    qcases; try lra; cbn; lia.
Qed.

Lemma quantize_value_monotone_witness :
  quantize_tensor (platform := cpu) [-2; 0; 3] =
    Ok ([0; 102; 255]%Z, Fin (255 / (3 - -2)), 102%Z) /\
  1 # 2 <= 1 /\
  (quantize_value (platform := cpu) (Fin (255 / (3 - -2))) 102 (1 # 2) <=
   quantize_value (platform := cpu) (Fin (255 / (3 - -2))) 102 1)%Z.
Proof.
  assert (H : quantize_tensor (platform := cpu) [-2; 0; 3] =
              Ok ([0; 102; 255]%Z, Fin (255 / (3 - -2)), 102%Z))
    by reflexivity.
  assert (Hle : 1 # 2 <= 1) by (intro; discriminate).
  split; [exact H|]. split; [exact Hle|].
  exact (quantize_value_monotone (platform := cpu) _ _ _ _ _ _ H Hle).
Defined.

(** ** Codes are stable, in binary32 *)

(** The arithmetic: a code that is dequantized and quantized again with
    operations that round is less than a half away from itself. *)
Lemma requantize_arith (s d p x D zp : Q) :
  ~ s == 0 -> - 255 <= D <= 255 -> 0 <= zp <= 255 ->
  Qabs (d - D / s) <= u32 * Qabs (D / s) ->
  Qabs (p - d * s) <= u32 * Qabs (d * s) ->
  Qabs (x - (p + zp)) <= u32 * Qabs (p + zp) ->
  D + zp - (1 # 2) < x < D + zp + (1 # 2).
Proof.
  intros Hs HD Hzp Ed Ep Ex.
  assert (Habs : 0 < Qabs s).
  { destruct (Qlt_le_dec 0 (Qabs s)) as [H|H]; [exact H|].
    exfalso. apply Hs. apply Qabs_Qle_condition in H. lra. }
  assert (Ed' : - (u32 * 255) <= d * s - D <= u32 * 255).
  { assert (E1 : d * s - D == (d - D / s) * s) by (field; exact Hs).
    assert (E2 : Qabs (D / s) * Qabs s == Qabs D).
    { rewrite <- Qabs_Qmult. apply Qabs_wd. field. exact Hs. }
    assert (HDa : Qabs D <= 255) by (apply Qabs_Qle_condition; lra).
    assert (Hm : Qabs (d - D / s) * Qabs s <= u32 * Qabs (D / s) * Qabs s)
      by (apply Qmult_le_compat_r; lra).
    assert (Hk : u32 * Qabs (D / s) * Qabs s == u32 * Qabs D)
      by (rewrite <- Qmult_assoc, E2; reflexivity).
    assert (Hu : u32 * Qabs D <= u32 * 255)
      by (apply Qmult_le_l; [reflexivity | exact HDa]).
    rewrite E1. apply Qabs_Qle_condition. rewrite Qabs_Qmult. lra. }
  unfold u32 in Ed'.
  pose proof (Qabs_bound _ _ 256 Ep) as Ep'.
  specialize (Ep' ltac:(lra)). unfold u32 in Ep'.
  pose proof (Qabs_bound _ _ 512 Ex) as Ex'.
  specialize (Ex' ltac:(lra)). unfold u32 in Ex'.
  lra.
Qed.

(** X7.  Codes are stable: whatever the scale and the zero point, a code of
    [0..255] that is dequantized the way [forward] does it and quantized
    again is the same code, when the quotient, the product and the sum this
    takes are correctly rounded. *)
Theorem f32_requantize_code {platform : Platform} (scale : f32)
  (zero_point q : Z) :
  (0 <= zero_point <= 255)%Z -> (0 <= q <= 255)%Z ->
  let d := f32_dequantize_value scale zero_point q in
  rounded_at fdiv sdiv (fsub (of_Z q) (of_Z zero_point)) scale ->
  rounded_at fmul smul d scale ->
  rounded_at fadd sadd (fmul d scale) (of_Z zero_point) ->
  f32_quantize_value scale zero_point d = q.
Proof.
  intros Hzp Hq d Hd Hp Hx.
  apply rounded_at_inv in Hd. destruct Hd as (d0 & e1 & Hd0 & He1 & Bd).
  apply rounded_at_inv in Hp. destruct Hp as (p & e2 & Hp0 & He2 & Bp).
  apply rounded_at_inv in Hx. destruct Hx as (x & e3 & Hx0 & He3 & Bx).
  fold (f32_dequantize_value scale zero_point q) in Hd0. fold d in Hd0.
  assert (Hd0' : scalar_eq (val d) (Fin d0)) by (rewrite Hd0; reflexivity).
  destruct (val scale) as [s| | |] eqn:Hs.
  - assert (Hs' : scalar_eq (Fin s) (Fin s)) by reflexivity.
    destruct (sdiv_Fin_inv _ _ _ _ _ (fsub_bytes_val _ _ Hq Hzp) Hs' He1)
      as [Hs0 Ee1].
    pose proof (smul_Fin_inv _ _ _ _ _ Hd0' Hs' He2) as Ee2.
    assert (Hp0' : scalar_eq (val (fmul d scale)) (Fin p))
      by (rewrite Hp0; reflexivity).
    pose proof (sadd_Fin_inv _ _ _ _ _ Hp0' (of_Z_byte _ Hzp) He3) as Ee3.
    rewrite Ee1 in Bd. rewrite Ee2 in Bp. rewrite Ee3 in Bx.
    assert (HD : - 255 <= inject_Z q - inject_Z zero_point <= 255).
    { assert (0 <= inject_Z q <= 255 /\ 0 <= inject_Z zero_point <= 255).
      { repeat split;
          [change 0 with (inject_Z 0) | change 255 with (inject_Z 255)
          | change 0 with (inject_Z 0) | change 255 with (inject_Z 255)];
          rewrite <- Zle_Qle; lia. }
      lra. }
    assert (Hz : 0 <= inject_Z zero_point <= 255).
    { split; [change 0 with (inject_Z 0) | change 255 with (inject_Z 255)];
        rewrite <- Zle_Qle; lia. }
    pose proof (requantize_arith _ _ _ _ _ _ Hs0 HD Hz Bd Bp Bx) as Hnear.
    unfold f32_quantize_value. rewrite Hx0, to_uint8_clamp_round.
    assert (Er : round_half_even x = q).
    { apply Z.le_antisymm.
      - apply round_half_even_lt. lra.
      - apply round_half_even_gt. lra. }
    rewrite Er. now apply clamp_byte_id.
  - (* the scale [+inf]: the quotient is 0 and [0 * inf] is NaN *)
    exfalso. destruct (val (fsub (of_Z q) (of_Z zero_point))) as [a| | |];
      simpl in He1; try discriminate He1.
    injection He1 as <-. rewrite Hd0 in He2. simpl in He2.
    apply Qabs_Qle_condition in Bd.
    assert (E0 : d0 == 0).
    { change (Qabs 0) with 0 in Bd. unfold u32 in Bd. lra. }
    rewrite (inf_of_sign_zero _ E0) in He2. discriminate He2.
  - exfalso. destruct (val (fsub (of_Z q) (of_Z zero_point))) as [a| | |];
      simpl in He1; try discriminate He1.
    injection He1 as <-. rewrite Hd0 in He2. simpl in He2.
    apply Qabs_Qle_condition in Bd.
    assert (E0 : - d0 == 0).
    { change (Qabs 0) with 0 in Bd. unfold u32 in Bd. lra. }
    rewrite (inf_of_sign_zero _ E0) in He2. discriminate He2.
  - exfalso. destruct (val (fsub (of_Z q) (of_Z zero_point))) as [a| | |];
      simpl in He1; discriminate He1.
Qed.

Lemma f32_requantize_code_witness :
  (0 <= 67 <= 255)%Z /\ (0 <= 200 <= 255)%Z /\
  rounded_at fdiv sdiv (fsub (of_Z 200) (of_Z 67)) (nearest 8795621 (-15)) /\
  rounded_at fmul smul (f32_dequantize_value (nearest 8795621 (-15)) 67 200)
    (nearest 8795621 (-15)) /\
  rounded_at fadd sadd
    (fmul (f32_dequantize_value (nearest 8795621 (-15)) 67 200)
       (nearest 8795621 (-15))) (of_Z 67) /\
  f32_quantize_value (platform := cpu) (nearest 8795621 (-15)) 67
    (f32_dequantize_value (nearest 8795621 (-15)) 67 200) = 200%Z.
Proof.
  assert (Hz : (0 <= 67 <= 255)%Z) by lia.
  assert (Hq : (0 <= 200 <= 255)%Z) by lia.
  assert (H1 : rounded_at fdiv sdiv (fsub (of_Z 200) (of_Z 67))
                 (nearest 8795621 (-15)))
    by (vm_compute; discriminate).
  assert (H2 : rounded_at fmul smul
                 (f32_dequantize_value (nearest 8795621 (-15)) 67 200)
                 (nearest 8795621 (-15)))
    by (vm_compute; discriminate).
  assert (H3 : rounded_at fadd sadd
                 (fmul (f32_dequantize_value (nearest 8795621 (-15)) 67 200)
                    (nearest 8795621 (-15))) (of_Z 67))
    by (vm_compute; discriminate).
  repeat (split; [assumption|]).
  exact (f32_requantize_code (platform := cpu) _ _ _ Hz Hq H1 H2 H3).
Defined.

(** ** The loop of [quantize_model], child by child *)

Lemma setattr_app_fresh (done rest : children_t) (name : string)
  (m value : module) :
  ~ In name (map fst done) ->
  setattr (done ++ (name, m) :: rest) name value = done ++ (name, value) :: rest.
Proof.
  intros Hfresh. induction done as [|[n c] done IH]; simpl.
  - now rewrite String.eqb_refl.
  - destruct (String.eqb n name) eqn:E.
    + apply String.eqb_eq in E. subst n. exfalso. apply Hfresh. now left.
    + f_equal. apply IH. intros H. apply Hfresh. now right.
Qed.

Lemma result_map_snoc {A : Type} (done : list A) (x : A) (r : result (list A)) :
  result_map (app (done ++ [x])) r =
  result_map (app done) (bs <- r ;; Ok (x :: bs)).
Proof. destruct r; simpl; [now rewrite <- app_assoc | reflexivity]. Qed.

Section LoopAsMap.

Context {platform : Platform}.
Variable recurse : module -> result (module * module).
Variable E : list string.
Hypothesis recurse_copies :
  forall m r a, recurse m = Ok (r, a) -> a = m.

(** With the children under distinct names, the loop, which writes the
    children one name at a time, does to each child what [quantize_child]
    tells. *)
Lemma quantize_children_map (todo done : children_t) :
  NoDup (map fst done ++ map fst todo) ->
  quantize_children recurse E todo (done ++ todo) =
  result_map (app done) (mapM (quantize_child recurse E) todo).
Proof.
  revert done. induction todo as [|[name layer] rest IH]; intros done Hnd.
  - reflexivity.
  - assert (Hfresh : ~ In name (map fst done)).
    { apply NoDup_remove_2 in Hnd. intros H. apply Hnd.
      apply in_or_app. now left. }
    assert (Hnext : forall x : module,
               NoDup (map fst (done ++ [(name, x)]) ++ map fst rest))
      by (intros x; rewrite map_app, <- app_assoc; exact Hnd).
    assert (Hstep : forall x : module,
               quantize_children recurse E rest (done ++ (name, x) :: rest) =
               result_map (app done)
                 (bs <- mapM (quantize_child recurse E) rest ;;
                  Ok ((name, x) :: bs))).
    { intros x. rewrite <- result_map_snoc, <- (IH _ (Hnext x)).
      now rewrite <- app_assoc. }
    cbn [quantize_children mapM quantize_child].
    destruct (excluded name E); [apply Hstep|].
    destruct layer as [l|q|cls sub].
    + destruct (quantize_linear l) as [p|]; [|reflexivity].
      cbn [bind]. rewrite setattr_app_fresh by exact Hfresh. apply Hstep.
    + destruct (recurse (Quantized q)) as [[r a]|] eqn:Hr; [|reflexivity].
      apply recurse_copies in Hr. subst a.
      cbn [bind]. rewrite setattr_app_fresh by exact Hfresh. apply Hstep.
    + destruct (recurse (nn_Module cls sub)) as [[r a]|] eqn:Hr; [|reflexivity].
      apply recurse_copies in Hr. subst a.
      cbn [bind]. rewrite setattr_app_fresh by exact Hfresh. apply Hstep.
Qed.

End LoopAsMap.

(** X8.  For children registered under distinct names, as those of a module
    are, the loop of [quantize_model] with its assignments by name is a pass
    over the children that takes each one on its own: an excluded child and
    a child that is not an [nn.Linear] are kept as they are, an [nn.Linear]
    is replaced by its quantized version, and the first exception ends the
    call.  Nothing below a direct child is ever replaced. *)
Theorem quantize_model_as_map {platform : Platform} (cls : string)
  (children : children_t) (E : list string) (copy_model : bool) :
  NoDup (map fst children) ->
  quantize_model (nn_Module cls children) E copy_model =
  (children' <-
     mapM (quantize_child (fun layer => quantize_model layer E true) E)
       children ;;
   Ok (nn_Module cls children',
       if copy_model then nn_Module cls children
       else nn_Module cls children')).
Proof.
  intros Hnd. cbn [quantize_model].
  rewrite (quantize_children_map
             (fun layer => quantize_model layer E true) E
             (fun m r a => quantize_model_copy E m r a) children []) by exact Hnd.
  cbn [app].
  destruct (mapM _ children) as [c|]; reflexivity.
Qed.

Lemma quantize_model_as_map_witness :
  NoDup (map fst (named_children nested_model)) /\
  quantize_model (platform := cpu) nested_model [] true =
  (children' <-
     mapM (quantize_child (platform := cpu)
             (fun layer => quantize_model (platform := cpu) layer [] true) [])
       (named_children nested_model) ;;
   Ok (nn_Module "Sequential" children',
       nn_Module "Sequential" (named_children nested_model))).
Proof.
  assert (H : NoDup (map fst (named_children nested_model))).
  { simpl. constructor; [intros [H|[]]; discriminate H|].
    constructor; [intros []|]. constructor. }
  split; [exact H|].
  exact (quantize_model_as_map (platform := cpu) "Sequential"
           (named_children nested_model) [] true H).
Defined.

(** ** Quantizing twice *)

Lemma mapM_names {platform : Platform}
  (rec : module -> result (module * module)) (E : list string)
  (l l' : children_t) :
  mapM (quantize_child rec E) l = Ok l' -> map fst l' = map fst l.
Proof.
  revert l'. induction l as [|[name layer] r IH]; intros l' H;
    cbn [mapM] in H.
  - now injection H as <-.
  - destruct (quantize_child rec E (name, layer)) as [[n' c']|] eqn:Hc;
      [|discriminate].
    cbn [bind] in H.
    destruct (mapM (quantize_child rec E) r) as [bs|]; [|discriminate].
    cbn [bind] in H. injection H as <-. simpl. f_equal; [|now apply IH].
    unfold quantize_child in Hc.
    destruct (excluded name E); [now injection Hc as <- _|].
    destruct layer as [l0|q|cls sub].
    + destruct (quantize_linear l0); [|discriminate]. now injection Hc as <- _.
    + destruct (rec (Quantized q)); [|discriminate]. now injection Hc as <- _.
    + destruct (rec (nn_Module cls sub)); [|discriminate].
      now injection Hc as <- _.
Qed.

Lemma mapM_fixed {A : Type} (f : A -> result A) (l l' : list A) :
  (forall c c', f c = Ok c' -> f c' = Ok c') ->
  mapM f l = Ok l' -> mapM f l' = Ok l'.
Proof.
  intros Hf. revert l'. induction l as [|a r IH]; intros l' H;
    cbn [mapM] in H.
  - injection H as <-. reflexivity.
  - destruct (f a) as [b|] eqn:Hb; [|discriminate]. cbn [bind] in H.
    destruct (mapM f r) as [bs|] eqn:Hbs; [|discriminate].
    cbn [bind] in H. injection H as <-.
    simpl. rewrite (Hf _ _ Hb). cbn [bind]. now rewrite (IH _ eq_refl).
Qed.

(** What [quantize_child] returns, it returns again as it is. *)
Lemma quantize_child_fixed {platform : Platform} (E : list string)
  (c c' : string * module) :
  quantize_child (fun layer => quantize_model layer E true) E c = Ok c' ->
  quantize_child (fun layer => quantize_model layer E true) E c' = Ok c'.
Proof.
  destruct c as [name layer]. unfold quantize_child.
  destruct (excluded name E) eqn:Hex.
  - intros [= <-]. now rewrite Hex.
  - destruct layer as [l|q|cls sub].
    + destruct (quantize_linear l) as [p|]; [|discriminate].
      intros [= <-]. now rewrite Hex.
    + intros [= <-]. now rewrite Hex.
    + destruct (quantize_model (nn_Module cls sub) E true) as [ra|] eqn:Hr;
        [|discriminate].
      intros [= <-]. now rewrite Hex, Hr.
Qed.

(** X9.  Quantizing is idempotent: on the module a call has returned (its
    children under distinct names), a second call with the same exclusion
    list does not fail and returns that module unchanged. *)
Theorem quantize_model_idempotent {platform : Platform} (cls : string)
  (children : children_t) (E : list string) (copy_model copy_model' : bool)
  (r a : module) :
  NoDup (map fst children) ->
  quantize_model (nn_Module cls children) E copy_model = Ok (r, a) ->
  quantize_model r E copy_model' = Ok (r, r).
Proof.
  intros Hnd Hq.
  assert (Hmap : forall kids c,
             NoDup (map fst kids) ->
             quantize_model (nn_Module cls kids) E c =
             (kids' <-
                mapM (quantize_child (fun layer => quantize_model layer E true) E)
                  kids ;;
              Ok (nn_Module cls kids',
                  if c then nn_Module cls kids else nn_Module cls kids'))).
  { intros kids c Hk. cbn [quantize_model].
    rewrite (quantize_children_map
               (fun layer => quantize_model layer E true) E
               (fun m r' a' => quantize_model_copy E m r' a') kids []) by exact Hk.
    cbn [app]. destruct (mapM _ kids); reflexivity. }
  rewrite Hmap in Hq by exact Hnd.
  destruct (mapM _ children) as [children'|] eqn:Hc; [|discriminate].
  cbn [bind] in Hq. injection Hq as <- _.
  rewrite Hmap by (rewrite (mapM_names _ _ _ _ Hc); exact Hnd).
  rewrite (mapM_fixed _ _ _ (quantize_child_fixed E) Hc).
  cbn [bind]. now destruct copy_model'.
Qed.

Lemma quantize_model_idempotent_witness :
  NoDup (map fst (named_children flat_model)) /\
  exists r a,
    quantize_model (platform := cpu) flat_model ["1"%string] true = Ok (r, a) /\
    quantize_model (platform := cpu) r ["1"%string] false = Ok (r, r).
Proof.
  assert (H : NoDup (map fst (named_children flat_model))).
  { simpl. constructor; [intros [H|[H|[]]]; discriminate H|].
    constructor; [intros [H|[]]; discriminate H|].
    constructor; [intros []|]. constructor. }
  split; [exact H|].
  do 2 eexists. split; [reflexivity|].
  eapply (quantize_model_idempotent (platform := cpu) "Sequential"
            (named_children flat_model) ["1"%string] true false);
    [exact H | reflexivity].
Defined.

(** ** The exclusion list as a set *)

Lemma excluded_In (n : string) (E : list string) :
  excluded n E = true <-> In n E.
Proof.
  unfold excluded. rewrite existsb_exists. split.
  - intros (x & Hx & Heq). apply String.eqb_eq in Heq. now subst.
  - intros H. exists n. split; [exact H | apply String.eqb_refl].
Qed.

(** X10.  Only membership in [exclude_layers] counts: two exclusion lists
    with the same elements, in whatever order and with whatever repetitions,
    give the same outcome. *)
Theorem exclude_layers_as_set {platform : Platform} (model : module)
  (E E' : list string) (copy_model : bool) :
  (forall n, In n E <-> In n E') ->
  quantize_model model E copy_model = quantize_model model E' copy_model.
Proof.
  intros Hsame. apply quantize_model_tested. intros n _.
  destruct (excluded n E) eqn:H1, (excluded n E') eqn:H2; try reflexivity.
  - apply excluded_In, Hsame, excluded_In in H1. congruence.
  - apply excluded_In, Hsame, excluded_In in H2. congruence.
Qed.

Lemma exclude_layers_as_set_witness :
  (forall n, In n ["1"; "2"]%string <-> In n ["2"; "1"; "2"]%string) /\
  quantize_model (platform := cpu) flat_model ["1"; "2"]%string true =
  quantize_model (platform := cpu) flat_model ["2"; "1"; "2"]%string true.
Proof.
  assert (H : forall n, In n ["1"; "2"]%string <-> In n ["2"; "1"; "2"]%string).
  { intros n. simpl. tauto. }
  split; [exact H|].
  exact (exclude_layers_as_set (platform := cpu) flat_model _ _ true H).
Defined.

(** ** When [quantize_model] returns *)

Lemma quantize_linear_ok_iff {platform : Platform} (l : LinearLayer) :
  (exists p, quantize_linear l = Ok p) <-> linear_ok l = true.
Proof.
  destruct l as [i o w b]. unfold linear_ok, quantize_linear. cbn [weight bias].
  destruct w as [|w0 w].
  - split; [intros [p H]; discriminate H | discriminate].
  - destruct (quantize_tensor_nonempty (w0 :: w)) as (wq & ws & wz & Hw);
      [discriminate|].
    rewrite Hw. cbn [bind].
    destruct b as [[|b0 b]|].
    + split; [intros [p H]; discriminate H | discriminate].
    + destruct (quantize_tensor_nonempty (b0 :: b)) as (bq & bs & bz & Hb);
        [discriminate|].
      cbn [bind]. rewrite Hb. cbn [bind]. split; [reflexivity | eauto].
    + split; [intros [p H]; discriminate H | discriminate].
Qed.

Section ReturnFacts.

Context {platform : Platform}.
Variable rec : module -> result (module * module).
Variable E : list string.

(** The loop returns when each of its turns does, whatever the children it
    writes to. *)
Lemma quantize_children_returns (cls : string) (todo : children_t) :
  Forall
    (fun c => (exists ra, rec (snd c) = Ok ra) <->
              traversal_ok (snd c) E = true) todo ->
  forall children,
    (exists children', quantize_children rec E todo children = Ok children') <->
    traversal_ok (nn_Module cls todo) E = true.
Proof.
  induction 1 as [|[name layer] rest Hrec _ IH]; intros children.
  - simpl. split; [reflexivity | eauto].
  - cbn [traversal_ok forallb] in *. cbn [quantize_children snd] in *.
    rewrite andb_true_iff.
    destruct (excluded name E); cbn [orb].
    + rewrite IH. tauto.
    + destruct layer as [l|q|cls' sub].
      * rewrite <- quantize_linear_ok_iff.
        destruct (quantize_linear l) as [p|e]; cbn [bind].
        -- rewrite IH. split; [intros H; split; [eauto | exact H] | tauto].
        -- split; [intros [c H]; discriminate H | intros [[p H] _]; discriminate H].
      * rewrite <- Hrec.
        destruct (rec (Quantized q)) as [[r a]|e]; cbn [bind].
        -- rewrite IH. split; [intros H; split; [eauto | exact H] | tauto].
        -- split; [intros [c H]; discriminate H | intros [[p H] _]; discriminate H].
      * rewrite <- Hrec.
        destruct (rec (nn_Module cls' sub)) as [[r a]|e]; cbn [bind].
        -- rewrite IH. split; [intros H; split; [eauto | exact H] | tauto].
        -- split; [intros [c H]; discriminate H | intros [[p H] _]; discriminate H].
Qed.

End ReturnFacts.

(** X11.  [quantize_model] returns exactly when every [nn.Linear] it comes
    to has a weight with an element and a bias with an element -- the direct
    children that are not excluded and, through the recursive calls, those of
    every module below that is neither excluded nor an [nn.Linear]; otherwise
    it raises.  A layer several levels down that [quantize_linear] rejects
    makes the call fail, although no layer down there is replaced. *)
Theorem quantize_model_returns_iff {platform : Platform} (model : module)
  (E : list string) (copy_model : bool) :
  (exists ra, quantize_model model E copy_model = Ok ra) <->
  traversal_ok model E = true.
Proof.
  revert copy_model.
  induction model as [l|q|cls children IH] using module_ind;
    intros copy_model.
  - simpl. split; [reflexivity | eauto].
  - simpl. split; [reflexivity | eauto].
  - rewrite <- (quantize_children_returns
                  (fun layer => quantize_model layer E true) E cls children)
      with (children := children).
    + cbn [quantize_model].
      destruct (quantize_children _ E children children) as [c|e]; cbn [bind].
      * split; eauto.
      * split; intros [x H]; discriminate H.
    + eapply Forall_impl; [|exact IH]. intros c Hc. apply Hc.
Qed.

(** A linear layer without a bias three modules down: the call is not the
    one to quantize it, and fails on it. *)
Example deep_layer_without_bias :
  exists e,
    quantize_model (platform := cpu)
      (nn_Module "Sequential"
         [("0", linear_2_2);
          ("1", nn_Module "Sequential"
                  [("0", nn_Module "Sequential"
                           [("0", Linear layer_no_bias)])])]%string)
      [] true = Raise e.
Proof. eexists. reflexivity. Qed.
